(** * Job lifecycle of the YouTube downloader web app

    A shallow embedding of [youtube_webapp.py]: the in-memory job registry
    [downloads], the runner [download_videos] with its [progress_hook], the
    archive step and the three Flask handlers [start_download], [progress]
    and [download_zip].

    The media engine (yt-dlp), the clock, the UUID generator and the file
    system are outside the program.  They appear as an explicit environment
    ([Env]) whose answers are arbitrary, so that every statement below holds
    for every behaviour of those collaborators.

    Python exceptions are values: a call either returns or raises a message.
    Every block run under [downloads_lock] is one atomic registry update. *)

From Stdlib Require Import ZArith QArith Qround Qpower Lia Lqa Psatz Floats.
From stdpp Require Import gmap strings list pretty.

Local Open Scope string_scope.
Local Open Scope list_scope.
Local Open Scope Z_scope.

(** ** Python floats

    [int((completed / total) * 90)] is evaluated in binary64.  A finite
    binary64 value is represented by the rational it denotes; an operation
    is the exact rational operation followed by rounding to 53 significant
    bits, ties to even.  Overflow and subnormals are left out: they need
    magnitudes beyond [2^1023] or below [2^-1022], which quotients of list
    lengths and event counts do not reach. *)

Module Float64.

(** Nearest integer, ties to the even one. *)
Definition rne (y : Q) : Z :=
  let f := Qfloor y in
  match Qcompare (y - inject_Z f) (1 # 2) with
  | Lt => f
  | Gt => f + 1
  | Eq => if Z.even f then f else f + 1
  end.

(** [ilog2 x] is the integer [k] with [2^k <= x < 2^(k+1)], for [x > 0]. *)
Definition ilog2 (x : Q) : Z :=
  let k := Z.log2 (Qnum x) - Z.log2 (Zpos (Qden x)) in
  if Qle_bool (2 ^ k) x then k else k - 1.

(** Rounding of a positive rational to 53 significant bits. *)
Definition round_pos (x : Q) : Q :=
  let u := (2 ^ (ilog2 x - 52))%Q in
  (inject_Z (rne (x / u)) * u)%Q.

Definition round (x : Q) : Q :=
  match Qcompare x 0 with
  | Eq => 0%Q
  | Gt => round_pos x
  | Lt => (- round_pos (- x))%Q
  end.

(** [a / b] on two Python ints (true division, correctly rounded). *)
Definition div_int (a b : Z) : Q := round (inject_Z a / inject_Z b).

(** [x * n] for a float [x] and an int [n] that is exactly representable. *)
Definition mul (x y : Q) : Q := round (x * y).

(** [int(x)]: truncation toward zero. *)
Definition trunc (x : Q) : Z :=
  if Qle_bool 0 x then Qfloor x else - Qfloor (- x).

End Float64.

(** Line 54: [int((completed / total) * 90)], for [total <> 0]. *)
Definition py_pct (completed total : Z) : Z :=
  Float64.trunc (Float64.mul (Float64.div_int completed total) 90).

(** The formula as the specification words it,
    [floor(completedCount / totalCount * 90)], in exact arithmetic. *)
Definition spec_pct (completed total : Z) : Z :=
  Qfloor (inject_Z completed / inject_Z total * 90).

(** The same expression on the kernel's hardware binary64 numbers, used
    only to cross-check [Float64] by evaluation. *)
Definition SF2Z (f : SpecFloat.spec_float) : Z :=
  match f with
  | SpecFloat.S754_finite s m e =>
      let v := if 0 <=? e then Zpos m * 2 ^ e else Zpos m / 2 ^ (- e) in
      if s then - v else v
  | _ => 0
  end.

Definition prim_pct (completed total : Z) : Z :=
  SF2Z (Prim2SF
    (PrimFloat.mul
       (PrimFloat.div (PrimFloat.of_uint63 (Uint63.of_Z completed))
                      (PrimFloat.of_uint63 (Uint63.of_Z total)))
       (PrimFloat.of_uint63 (Uint63.of_Z 90)))).

Definition pct_grid (n : nat) : list (Z * Z) :=
  c ← seqZ 0 (Z.of_nat n); t ← seqZ 1 (Z.of_nat n); [(c, t)].

(** ** Python strings *)

(** [needle in hay]. *)
Fixpoint py_in (needle hay : string) : bool :=
  String.prefix needle hay ||
  match hay with
  | EmptyString => false
  | String _ hay' => py_in needle hay'
  end.

(** [s[:n]]. *)
Definition py_take (n : nat) (s : string) : string := String.substring 0 n s.

(** [str(n)] for an int. *)
Definition py_str (n : Z) : string := pretty n.

(** [pathlib]'s [a / b] rendered by [str], for a relative [b]. *)
Definition path_join (a b : string) : string :=
  if decide (a = "/") then "/" +:+ b else a +:+ "/" +:+ b.

(** ** The job record and the registry *)

(** One value of the dict [downloads]: the keys of line 191 plus the
    optional key ['zip_path'] that line 79 adds. *)
Record Job := mkJob {
  status : string;
  progress : Z;
  current : string;
  errors : list string;
  timestamp : Q;
  zip_path : option string;
}.

(** Line 191. *)
Definition new_job (now : Q) : Job :=
  mkJob "starting" 0 "Initializing" [] now None.

Definition set_progress (p : Z) (j : Job) : Job :=
  mkJob (status j) p (current j) (errors j) (timestamp j) (zip_path j).

Definition set_current (m : string) (j : Job) : Job :=
  mkJob (status j) (progress j) m (errors j) (timestamp j) (zip_path j).

(** Lines 77-81, the five assignments of the final locked block. *)
Definition finish_job (zp : string) (completed total : Z) (errs : list string)
    (j : Job) : Job :=
  mkJob "completed" 100
        ("Completed! " +:+ py_str completed +:+ "/" +:+ py_str total
                       +:+ " downloaded")
        errs (timestamp j) (Some zp).

(** [str(KeyError(k))]. *)
Definition key_error (k : string) : string := "'" +:+ k +:+ "'".

(** ** Validation (lines 25-26) *)

Definition is_valid_youtube_url (url : string) : bool :=
  py_in "youtube.com" url || py_in "youtu.be" url.

(** ** Progress events and the hook (lines 50-58) *)

(** The dict [d] that yt-dlp hands to a progress hook: ['status'] and the
    optional ['filename']. *)
Record hook_event := mkEvent {
  ev_status : string;
  ev_filename : option string;
}.

(** [d.get('filename','')[:50]]. *)
Definition ev_name (d : hook_event) : string :=
  py_take 50 (default "" (ev_filename d)).

(** Result of one hook call: the runner's counter afterwards, and either
    the registry after the locked block or the exception raised in it. *)
Inductive hook_result :=
  | HookOk (completed : Z) (reg : gmap string Job)
  | HookRaised (completed : Z) (msg : string).

Definition progress_hook (download_id : string) (total : Z) (d : hook_event)
    (completed : Z) (reg : gmap string Job) : hook_result :=
  if decide (ev_status d = "downloading") then
    if decide (total = 0) then HookRaised completed "division by zero"
    else
      match reg !! download_id with
      | None => HookRaised completed (key_error download_id)
      | Some j =>
          HookOk completed
            (<[download_id :=
                 set_current ("Downloading: " +:+ ev_name d)
                   (set_progress (py_pct completed total) j)]> reg)
      end
  else if decide (ev_status d = "finished") then
    match reg !! download_id with
    | None => HookRaised (completed + 1) (key_error download_id)
    | Some j =>
        HookOk (completed + 1)
          (<[download_id := set_current ("Finished: " +:+ ev_name d) j]> reg)
    end
  else HookOk completed reg.

(** Lines 76-81 on the registry; [None] is the [KeyError] of line 77. *)
Definition final_update (download_id zp : string) (completed total : Z)
    (errs : list string) (reg : gmap string Job) : option (gmap string Job) :=
  match reg !! download_id with
  | None => None
  | Some j => Some (<[download_id := finish_job zp completed total errs j]> reg)
  end.

(** ** The world outside the program *)

(** A directory entry as [os.path.isfile] sees it. *)
#[warnings="-register-all"]
Inductive node :=
  | File (data : list Byte.byte)
  | Dir (children : list (string * node))
  | Special.

(** Lines 36-44. *)
Record ydl_opts := mkOpts {
  outtmpl : string;
  format : string;
  ignoreerrors : bool;
  no_warnings : bool;
  writesubtitles : bool;
  writeautomaticsub : bool;
}.

(** The answers of the collaborators.  An [option string] is [None] when
    the call returns and [Some msg] when it raises an exception whose
    [str] is [msg].
    - [mkdir p]: [import yt_dlp] and [Path(p).mkdir(parents=True,
      exist_ok=True)] (lines 30-34);
    - [ydl_init o]: entering [with yt_dlp.YoutubeDL(o) as ydl];
    - [ydl_download o i url]: the [i]-th call [ydl.download([url])], as the
      progress events it hands to the hook, in order, and how it ends;
    - [listdir p]: the entries of directory [p] when the archive is built;
    - [zip_fault p]: an exception raised while the archive [p] is written. *)
Record Env := mkEnv {
  home : string;
  mkdir : string → option string;
  ydl_init : ydl_opts → option string;
  ydl_download : ydl_opts → nat → string → list hook_event * option string;
  listdir : string → list (string * node);
  zip_fault : string → option string;
}.

(** Line 33, and line 69 ([download_dir.parent] is [home / "Downloads"]). *)
Definition download_dir_of (hm download_id : string) : string :=
  path_join (path_join hm "Downloads") ("YouTube_" +:+ download_id).

Definition zip_path_of (hm download_id : string) : string :=
  path_join (path_join hm "Downloads") ("youtube_" +:+ download_id +:+ ".zip").

Definition make_opts (download_dir quality : string) : ydl_opts :=
  mkOpts (path_join download_dir "%(playlist_index)02d - %(title)s.%(ext)s")
         (if decide (quality ≠ "best") then "best[height<=" +:+ quality +:+ "]"
          else "best")
         true true true true.

(** ** Archive step (lines 70-74) *)

(** [os.path.isfile] on an entry. *)
Definition isfile (n : node) : bool :=
  match n with
  | File _ => true
  | _ => false
  end.

(** The bytes that [zipf.write] reads from an entry. *)
Definition read_bytes (n : node) : list Byte.byte :=
  match n with
  | File data => data
  | _ => []
  end.

(** [for f in os.listdir(download_dir)]: the entry [f] is written, under
    the name [f] it is listed by, exactly when [os.path.isfile] holds of
    it.  The result is the archive's member list, in writing order. *)
Fixpoint write_zip (entries : list (string * node))
    : list (string * list Byte.byte) :=
  match entries with
  | [] => []
  | (f, n) :: rest =>
      if isfile n then (f, read_bytes n) :: write_zip rest
      else write_zip rest
  end.

(** ** The runner (lines 29-81) *)

(** The events of one [ydl.download] call, handed to the hook one by one.
    Returns the counter, the registry, the registry states left behind by
    the locked blocks, and the exception of a hook call, which ends the
    fetch. *)
Fixpoint deliver (download_id : string) (total : Z) (evs : list hook_event)
    (completed : Z) (reg : gmap string Job)
    : Z * gmap string Job * list (gmap string Job) * option string :=
  match evs with
  | [] => (completed, reg, [], None)
  | d :: evs' =>
      match progress_hook download_id total d completed reg with
      | HookOk c reg' =>
          let '(c', reg'', tr, exc) := deliver download_id total evs' c reg' in
          (c', reg'', reg' :: tr, exc)
      | HookRaised c msg => (c, reg, [], Some msg)
      end
  end.

(** Lines 63-67: [try: ydl.download([url]) except Exception as e:
    errors.append(str(e))], for the urls from position [i] on. *)
Fixpoint fetch_all (env : Env) (opts : ydl_opts) (download_id : string)
    (total : Z) (i : nat) (urls : list string) (completed : Z)
    (errs : list string) (reg : gmap string Job)
    : Z * list string * gmap string Job * list (gmap string Job) :=
  match urls with
  | [] => (completed, errs, reg, [])
  | url :: rest =>
      let '(evs, exc) := ydl_download env opts i url in
      let '(c, reg', tr, hook_exc) := deliver download_id total evs completed reg in
      let errs' :=
        match hook_exc, exc with
        | Some m, _ => errs ++ [m]
        | None, Some m => errs ++ [m]
        | None, None => errs
        end in
      let '(c2, errs2, reg2, tr2) :=
        fetch_all env opts download_id total (S i) rest c errs' reg' in
      (c2, errs2, reg2, tr ++ tr2)
  end.

(** How the thread function ends. *)
Inductive outcome :=
  | Returned
  | Raised (msg : string).

(** One execution of [download_videos]: the registry after each locked
    block in order, the registry at the end, the way the function ended,
    the archive written in full (path and members; [None] when the archive
    step is not reached or raises) and the runner's locals. *)
Record Run := mkRun {
  run_trace : list (gmap string Job);
  run_final : gmap string Job;
  run_outcome : outcome;
  run_archive : option (string * list (string * list Byte.byte));
  run_completed : Z;
  run_errors : list string;
}.

(** [download_videos(urls, download_id, _, quality)]; the unused third
    argument is dropped. *)
Definition download_videos (env : Env) (urls : list string)
    (download_id quality : string) (reg : gmap string Job) : Run :=
  let download_dir := download_dir_of (home env) download_id in
  match mkdir env download_dir with
  | Some e => mkRun [] reg (Raised e) None 0 []
  | None =>
      let opts := make_opts download_dir quality in
      let total := Z.of_nat (length urls) in
      match ydl_init env opts with
      | Some e => mkRun [] reg (Raised e) None 0 []
      | None =>
          let '(c, errs, reg1, tr) :=
            fetch_all env opts download_id total 0 urls 0 [] reg in
          let zp := zip_path_of (home env) download_id in
          match zip_fault env zp with
          | Some e => mkRun tr reg1 (Raised e) None c errs
          | None =>
              let members := write_zip (listdir env download_dir) in
              match final_update download_id zp c total errs reg1 with
              | None =>
                  mkRun tr reg1 (Raised (key_error download_id))
                        (Some (zp, members)) c errs
              | Some reg2 =>
                  mkRun (tr ++ [reg2]) reg2 Returned (Some (zp, members)) c errs
              end
          end
      end
  end.

(** ** The handlers (lines 182-209) *)

Inductive response :=
  | JsonFailure (error : string)
  | JsonStarted (download_id : string)
  | JsonJob (j : Job)
  | JsonError (error : string) (code : Z)
  | Text (body : string) (code : Z)
  | SendFile (path download_name mimetype : string).

(** The arguments of the thread that [start_download] starts. *)
Record thread := mkThread {
  t_urls : list string;
  t_id : string;
  t_quality : string;
}.

(** [start_download], for a request body with the given [urls] and
    [quality]; [uuid4] is [str(uuid.uuid4())] and [now] is [time.time()].
    Returns the response, the registry afterwards and the thread started. *)
Definition start_download (uuid4 : string) (now : Q) (urls : list string)
    (quality : string) (reg : gmap string Job)
    : response * gmap string Job * option thread :=
  let valid_urls := List.filter is_valid_youtube_url urls in
  match valid_urls with
  | [] => (JsonFailure "No valid URLs", reg, None)
  | _ :: _ =>
      let download_id := py_take 8 uuid4 in
      (JsonStarted download_id,
       <[download_id := new_job now]> reg,
       Some (mkThread valid_urls download_id quality))
  end.

(** [progress(download_id)]. *)
Definition progress_endpoint (reg : gmap string Job) (download_id : string)
    : response :=
  match reg !! download_id with
  | None => JsonError "Not found" 404
  | Some j => JsonJob j
  end.

(** Lines 206-209, on the values read from the record [info] after the
    lock is released: the status compared on line 206, the status formatted
    into the answer, and the archive location read on line 207.
    [file_exists] is [os.path.exists]. *)
Definition download_zip_reads (file_exists : string → bool)
    (download_id status_cmp status_fmt : string) (zp_read : option string)
    : response :=
  if decide (status_cmp ≠ "completed")
  then Text ("Status: " +:+ status_fmt) 400
  else
    match zp_read with
    | None => Text "Zip not found" 404
    | Some zp =>
        if decide (zp = "") then Text "Zip not found" 404
        else if file_exists zp
        then SendFile zp ("youtube_" +:+ download_id +:+ ".zip")
                      "application/zip"
        else Text "Zip not found" 404
    end.

(** [download_zip(download_id)] when no write to the record falls between
    the locked lookup and the reads of lines 206-207: all reads see the
    record of the registry state in which the lock was held.  The handler
    with the reads taken later is [download_zip_live] below. *)
Definition download_zip (file_exists : string → bool)
    (reg : gmap string Job) (download_id : string) : response :=
  match reg !! download_id with
  | None => Text "Not found" 404
  | Some info =>
      download_zip_reads file_exists download_id (status info) (status info)
                         (zip_path info)
  end.

(** [download_zip(download_id)] in full.  Line 205 keeps a reference to the
    record found under the lock; lines 206-207 read that same record after
    the lock is released, while a runner may be writing it.  [at_cmp],
    [at_fmt] and [at_zip] are the record as it is when line 206 compares
    the status, when line 206 formats it, and when line 207 reads the
    archive location. *)
Definition download_zip_live (file_exists : string → bool)
    (reg : gmap string Job) (download_id : string)
    (at_cmp at_fmt at_zip : Job) : response :=
  match reg !! download_id with
  | None => Text "Not found" 404
  | Some _ =>
      download_zip_reads file_exists download_id (status at_cmp)
                         (status at_fmt) (zip_path at_zip)
  end.

(** ** The final block, assignment by assignment (lines 77-81) *)





(** ** The registry as all threads see it

    Every write to [downloads] in the program is one of three locked
    blocks.  [step hm] relates the registry before and after one such
    block, run by any thread with any local values; [hm] is the home
    directory.  Any interleaving of any number of requests and runners is
    a chain of steps from the empty registry. *)
Inductive step (hm : string) : gmap string Job → gmap string Job → Prop :=
  | step_create (download_id : string) (now : Q) (reg : gmap string Job) :
      step hm reg (<[download_id := new_job now]> reg)
  | step_hook (download_id : string) (total completed completed' : Z)
      (d : hook_event) (reg reg' : gmap string Job) :
      progress_hook download_id total d completed reg = HookOk completed' reg' →
      step hm reg reg'
  | step_final (download_id : string) (completed total : Z)
      (errs : list string) (reg reg' : gmap string Job) :
      final_update download_id (zip_path_of hm download_id) completed total
                   errs reg = Some reg' →
      step hm reg reg'.

Definition reachable (hm : string) (reg : gmap string Job) : Prop :=
  rtc (step hm) ∅ reg.

(** Consecutive elements of a list are related by [R]. *)
Fixpoint chain {A : Type} (R : A → A → Prop) (x : A) (l : list A) : Prop :=
  match l with
  | [] => True
  | y :: l' => R x y ∧ chain R y l'
  end.

(** The last element of [x :: l]. *)
Fixpoint last_of {A : Type} (x : A) (l : list A) : A :=
  match l with
  | [] => x
  | y :: l' => last_of y l'
  end.

(** A job whose status allows no further change. *)
Definition terminal (j : Job) : Prop :=
  status j = "completed" ∨ status j = "failed".

(** The archive location is present and not the empty string. *)
Definition populated (j : Job) : Prop :=
  ∃ zp, zip_path j = Some zp ∧ zp ≠ "".

(** What every locked block keeps true of a record: it is completed with
    an archive location, or not completed, without archive location and
    without recorded error. *)
Definition job_inv (j : Job) : Prop :=
  (status j = "completed" ∧ populated j)
  ∨ (status j ≠ "completed" ∧ zip_path j = None ∧ errors j = []).

Definition reg_inv (reg : gmap string Job) : Prop :=
  ∀ download_id j, reg !! download_id = Some j → job_inv j.

(** Number of ['finished'] events in a list of events. *)
Definition count_finished (evs : list hook_event) : Z :=
  Z.of_nat (length (List.filter (λ d, bool_decide (ev_status d = "finished")) evs)).

(** ** The runner seen from one job record

    What the hook does to the record of its own job, without the registry
    around it.  These definitions are derived: [progress_hook_present],
    [deliver_present] and [fetch_all_present] below show that the runner
    computes exactly them when the record is present and [total <> 0]. *)

Definition hook_job (total : Z) (d : hook_event) (completed : Z) (j : Job)
    : Job :=
  if decide (ev_status d = "downloading") then
    set_current ("Downloading: " +:+ ev_name d)
      (set_progress (py_pct completed total) j)
  else if decide (ev_status d = "finished") then
    set_current ("Finished: " +:+ ev_name d) j
  else j.

Definition hook_count (d : hook_event) (completed : Z) : Z :=
  if decide (ev_status d = "downloading") then completed
  else if decide (ev_status d = "finished") then completed + 1
  else completed.

(** The successive records of the job while [evs] are handed to the hook. *)
Fixpoint scan_events (total : Z) (evs : list hook_event) (completed : Z)
    (j : Job) : list Job :=
  match evs with
  | [] => []
  | d :: evs' =>
      let j' := hook_job total d completed j in
      j' :: scan_events total evs' (hook_count d completed) j'
  end.

(** The record after all of [evs]. *)
Fixpoint end_job (total : Z) (evs : list hook_event) (completed : Z)
    (j : Job) : Job :=
  match evs with
  | [] => j
  | d :: evs' =>
      end_job total evs' (hook_count d completed) (hook_job total d completed j)
  end.

(** All progress events of the fetches of [urls], from position [i] on. *)
Fixpoint fetch_events (env : Env) (opts : ydl_opts) (i : nat)
    (urls : list string) : list hook_event :=
  match urls with
  | [] => []
  | url :: rest =>
      (ydl_download env opts i url).1 ++ fetch_events env opts (S i) rest
  end.

(** The messages of the fetches that raise, in order. *)
Fixpoint fetch_errors (env : Env) (opts : ydl_opts) (i : nat)
    (urls : list string) : list string :=
  match urls with
  | [] => []
  | url :: rest =>
      match (ydl_download env opts i url).2 with
      | Some m => m :: fetch_errors env opts (S i) rest
      | None => fetch_errors env opts (S i) rest
      end
  end.

(** The fields that only line 191 and lines 77-81 write. *)
Definition same_meta (j j' : Job) : Prop :=
  status j' = status j ∧ errors j' = errors j ∧
  zip_path j' = zip_path j ∧ timestamp j' = timestamp j.

(** Between two registry states, the progress of job [download_id] does
    not go down, as long as the later state is not terminal. *)
Definition no_decrease (download_id : string) (r r' : gmap string Job)
    : Prop :=
  ∀ a b, r !! download_id = Some a → r' !! download_id = Some b →
         ¬ terminal b → progress a ≤ progress b.

(** [download_videos] when the record of [download_id] is [j]: the whole
    run in terms of the record alone ([download_videos_present] below). *)
Definition run_present (env : Env) (urls : list string)
    (download_id quality : string) (reg : gmap string Job) (j : Job) : Run :=
  let dir := download_dir_of (home env) download_id in
  let opts := make_opts dir quality in
  let total := Z.of_nat (length urls) in
  let evs := fetch_events env opts 0 urls in
  let errs := fetch_errors env opts 0 urls in
  let c := count_finished evs in
  let zp := zip_path_of (home env) download_id in
  let tr := (λ j', <[download_id := j']> reg) <$> scan_events total evs 0 j in
  let last_j := end_job total evs 0 j in
  match mkdir env dir with
  | Some e => mkRun [] (<[download_id := j]> reg) (Raised e) None 0 []
  | None =>
      match ydl_init env opts with
      | Some e => mkRun [] (<[download_id := j]> reg) (Raised e) None 0 []
      | None =>
          match zip_fault env zp with
          | Some e =>
              mkRun tr (<[download_id := last_j]> reg) (Raised e) None c errs
          | None =>
              let fin :=
                <[download_id := finish_job zp c total errs last_j]> reg in
              mkRun (tr ++ [fin]) fin Returned
                    (Some (zp, write_zip (listdir env dir))) c errs
          end
      end
  end.

(** A sequence of [start_download] requests over the registry's lifetime:
    each request is its UUID string, clock reading, urls and quality.
    Returns the responses in order and the registry at the end. *)
Fixpoint serve_all (reqs : list (string * Q * list string * string))
    (reg : gmap string Job) : list response * gmap string Job :=
  match reqs with
  | [] => ([], reg)
  | (uuid4, now, urls, quality) :: rest =>
      let '(resp, reg', _) := start_download uuid4 now urls quality reg in
      let '(resps, reg'') := serve_all rest reg' in
      (resp :: resps, reg'')
  end.

(** ** Sample environments *)

(** An environment in which nothing raises but the fetches that [fetch]
    says so; [fetch i] is the behaviour of the [i]-th fetch. *)
Definition calm_env (fetch : nat → list hook_event * option string)
    (entries : list (string * node)) : Env :=
  mkEnv "/home/user" (λ _, None) (λ _, None) (λ _ i _, fetch i)
        (λ _, entries) (λ _, None).

Definition downloading (name : string) : hook_event :=
  mkEvent "downloading" (Some name).

Definition finished (name : string) : hook_event :=
  mkEvent "finished" (Some name).

(** Two fetches: the first raises, the second succeeds while the engine
    reports two finished files (the video and its subtitle track). *)
Definition two_files_env : Env :=
  calm_env (λ i, match i with
                 | O => ([], Some "ERROR: Video unavailable")
                 | _ => ([downloading "01 - a.mp4"; finished "01 - a.mp4";
                          finished "01 - a.en.vtt"], None)
                 end)
           [("01 - a.mp4", File []); ("01 - a.en.vtt", File [])].

(** Two fetches: the first raises, the second succeeds and reports one
    finished file. *)
Definition one_file_env : Env :=
  calm_env (λ i, match i with
                 | O => ([downloading "01 - b.mp4"], Some "ERROR: Video unavailable")
                 | _ => ([downloading "01 - a.mp4"; finished "01 - a.mp4"], None)
                 end)
           [("01 - a.mp4", File [])].

Definition sample_urls : list string :=
  ["https://youtu.be/bbbbbbbbbbb"; "https://www.youtube.com/watch?v=aaaaaaaaaaa"].

(** The directory of the job cannot be created. *)
Definition no_mkdir_env : Env :=
  mkEnv "/home/user" (λ _, Some "[Errno 13] Permission denied: '/home/user/Downloads'")
        (λ _, None) (λ _ _ _, ([finished "01 - a.mp4"], None))
        (λ _, []) (λ _, None).

(** The archive cannot be written, after one successful fetch. *)
Definition no_zip_env : Env :=
  mkEnv "/home/user" (λ _, None) (λ _, None)
        (λ _ _ _, ([downloading "01 - a.mp4"; finished "01 - a.mp4"], None))
        (λ _, [("01 - a.mp4", File [])])
        (λ _, Some "[Errno 28] No space left on device").

(** One url whose fetch reports two finished files and then one more
    download in progress (a playlist, or a video and its subtitles). *)
Definition playlist_env : Env :=
  calm_env (λ _, ([finished "01 - a.mp4"; finished "02 - b.mp4";
                   downloading "03 - c.mp4"; finished "03 - c.mp4"], None))
           [("01 - a.mp4", File []); ("02 - b.mp4", File []);
            ("03 - c.mp4", File [])].

(** Every fetch succeeds and reports one download in progress and one
    finished file. *)
Definition steady_env : Env :=
  calm_env (λ _, ([downloading "v.mp4"; finished "v.mp4"], None))
           [("v.mp4", File [])].

Definition three_urls : list string :=
  ["https://youtu.be/aaaaaaaaaaa"; "https://youtu.be/bbbbbbbbbbb";
   "https://youtu.be/ccccccccccc"].

(** What a poll of job [download_id] shows in each state of a trace. *)
Definition polls (download_id : string) (tr : list (gmap string Job))
    : list (option (string * Z)) :=
  (λ r, (λ j, (status j, progress j)) <$> r !! download_id) <$> tr.

(** A job directory holding two regular files, a subdirectory with a file
    of its own, and a socket. *)
Definition sample_dir : list (string * node) :=
  [("01 - a.mp4", File [Byte.x00; Byte.x01]);
   ("parts", Dir [("01 - a.f137.mp4.part", File [Byte.x02])]);
   ("01 - a.en.vtt", File [Byte.x03]);
   ("ipc.sock", Special)].

(** Two UUIDs that differ and share their first eight characters. *)
Definition uuid_a : string := "3f2a9c1e-7b4d-4c1a-9e57-0a1b2c3d4e5f".
Definition uuid_b : string := "3f2a9c1e-02ce-4f6b-8d10-f5e4d3c2b1a0".

(** ** Start-up (lines 16-22 and 212-214) *)

(** How [import yt_dlp] ends. *)
Inductive import_result :=
  | ImportOk
  | ImportError
  | ImportRaises (msg : string).

(** [install_yt_dlp()]: [inl b] when it returns [b], [inr msg] when it
    raises; [pip] is how [subprocess.check_call] of the pip command ends. *)
Definition install_yt_dlp (imp : import_result) (pip : option string)
    : bool + string :=
  match imp with
  | ImportOk => inl true
  | ImportError =>
      match pip with
      | None => inl true
      | Some e => inr e
      end
  | ImportRaises e => inr e
  end.

(** How the script ends up: [sys.exit(code)], reaching [app.run] on a host
    and port, or an uncaught exception. *)
Inductive main_result :=
  | Exits (code : Z)
  | Serves (host : string) (port : Z)
  | Dies (msg : string).

(** Lines 212-214. *)
Definition main (imp : import_result) (pip : option string) : main_result :=
  match install_yt_dlp imp pip with
  | inl ok => if negb ok then Exits 1 else Serves "0.0.0.0" 5000
  | inr e => Dies e
  end.

(** ** One runner's writes

    [run_step download_id r r']: the registry goes from [r] to [r'] by one
    locked block of the runner of [download_id], the hook or the final
    update, with any local values. *)
Definition run_step (download_id : string) (r r' : gmap string Job) : Prop :=
  (∃ total d c c', progress_hook download_id total d c r = HookOk c' r')
  ∨ (∃ zp c total errs, final_update download_id zp c total errs r = Some r').

(** The creation requests of [reqs] that pass validation, as the
    identifiers they are given. *)
Definition issued_ids (reqs : list (string * Q * list string * string))
    : list string :=
  (λ '(uuid4, _, _, _), py_take 8 uuid4)
    <$> List.filter (λ '(_, _, urls, _), existsb is_valid_youtube_url urls) reqs.

(** The identifier in the answer of a successful creation. *)
Definition started_id (resp : response) : option string :=
  match resp with
  | JsonStarted download_id => Some download_id
  | _ => None
  end.

(** * Facts

    ** Rounding is monotone *)


Section Float64_facts.
Import Float64.
Local Open Scope Q_scope.

Lemma inject_Z_succ (n : Z) : inject_Z (n + 1) == inject_Z n + 1.
Proof. rewrite inject_Z_plus. reflexivity. Qed.

Lemma rne_bounds (y : Q) :
  inject_Z (Qfloor y) <= inject_Z (rne y) /\ inject_Z (rne y) <= inject_Z (Qfloor y) + 1.
Proof.
  unfold rne. cbv zeta.
  destruct (Qcompare _ _); [destruct (Z.even _)| |];
    rewrite ?inject_Z_succ; lra.
Qed.

Lemma rne_mono (x y : Q) : x <= y -> (rne x <= rne y)%Z.
Proof.
  intros Hxy.
  pose proof (Qfloor_resp_le _ _ Hxy) as Hf.
  pose proof (Qfloor_le x) as Hx1. pose proof (Qlt_floor x) as Hx2.
  pose proof (Qfloor_le y) as Hy1. pose proof (Qlt_floor y) as Hy2.
  destruct (Z.eq_dec (Qfloor x) (Qfloor y)) as [E|NE].
  - unfold rne. cbv zeta. rewrite <- E in *.
    destruct (Qcompare_spec (x - inject_Z (Qfloor x)) (1 # 2));
    destruct (Qcompare_spec (y - inject_Z (Qfloor x)) (1 # 2));
    try destruct (Z.even _); try lia; exfalso; lra.
  - assert (Qfloor x + 1 <= Qfloor y)%Z as Hlt by lia.
    unfold rne. cbv zeta.
    destruct (Qcompare _ _); destruct (Qcompare _ _);
    repeat destruct (Z.even _); lia.
Qed.

Lemma rne_Z (n : Z) : rne (inject_Z n) = n.
Proof.
  unfold rne. cbv zeta. rewrite Qfloor_Z.
  destruct (Qcompare_spec (inject_Z n - inject_Z n) (1 # 2)); try reflexivity; exfalso; lra.
Qed.

Lemma rne_le_Z (x : Q) (n : Z) : x <= inject_Z n -> (rne x <= n)%Z.
Proof. intros H. rewrite <- (rne_Z n). now apply rne_mono. Qed.

Lemma rne_ge_Z (x : Q) (n : Z) : inject_Z n <= x -> (n <= rne x)%Z.
Proof. intros H. rewrite <- (rne_Z n). now apply rne_mono. Qed.

Lemma pow2_pos (k : Z) : 0 < 2 ^ k.
Proof. apply Qpower_0_lt. reflexivity. Qed.

Lemma pow2_succ (k : Z) : 2 ^ (k + 1) == 2 * 2 ^ k.
Proof. rewrite Qpower_plus by discriminate. simpl. ring. Qed.

Lemma pow2_le (k k' : Z) : (k <= k')%Z -> 2 ^ k <= 2 ^ k'.
Proof. intros. apply Qpower_le_compat_l; [assumption | discriminate]. Qed.

Lemma pow2_lt_inv (k k' : Z) : 2 ^ k < 2 ^ k' -> (k < k')%Z.
Proof. intros. eapply Qpower_lt_compat_l_inv; [eassumption | reflexivity]. Qed.

Lemma pow2_inject (k : Z) : (0 <= k)%Z -> 2 ^ k == inject_Z (2 ^ k).
Proof. intros. rewrite Zpower_Qpower by assumption. reflexivity. Qed.

Lemma ilog2_spec (x : Q) : 0 < x -> 2 ^ ilog2 x <= x /\ x < 2 ^ (ilog2 x + 1).
Proof.
  intros Hx. destruct x as [n d].
  assert (0 < n)%Z as Hn by (unfold Qlt in Hx; simpl in Hx; lia).
  unfold ilog2. cbn [Qnum Qden].
  set (a := Z.log2 n). set (b := Z.log2 (Z.pos d)).
  destruct (Z.log2_spec n Hn) as [Ha1 Ha2]. fold a in Ha1, Ha2.
  destruct (Z.log2_spec (Z.pos d) eq_refl) as [Hb1 Hb2]. fold b in Hb1, Hb2.
  assert (0 <= a)%Z as Ha0 by apply Z.log2_nonneg.
  assert (0 <= b)%Z as Hb0 by apply Z.log2_nonneg.
  assert (Hx' : n # d == inject_Z n / inject_Z (Z.pos d)) by apply Qmake_Qdiv.
  assert (HD : 0 < inject_Z (Z.pos d)) by (unfold Qlt; simpl; lia).
  assert (HA1 : 2 ^ a <= inject_Z n)
    by (rewrite pow2_inject by lia; rewrite <- Zle_Qle; lia).
  assert (HA2 : inject_Z n < 2 * 2 ^ a).
  { rewrite <- pow2_succ. rewrite pow2_inject by lia. rewrite <- Zlt_Qlt.
    replace (a + 1)%Z with (Z.succ a) by lia. exact Ha2. }
  assert (HB1 : 2 ^ b <= inject_Z (Z.pos d))
    by (rewrite pow2_inject by lia; rewrite <- Zle_Qle; lia).
  assert (HB2 : inject_Z (Z.pos d) < 2 * 2 ^ b).
  { rewrite <- pow2_succ. rewrite pow2_inject by lia. rewrite <- Zlt_Qlt.
    replace (b + 1)%Z with (Z.succ b) by lia. exact Hb2. }
  pose proof (pow2_pos a) as Hpa. pose proof (pow2_pos b) as Hpb.
  assert (Hk : 2 ^ (a - b) == 2 ^ a / 2 ^ b)
    by (apply Qpower_minus; discriminate).
  assert (Hup : n # d < 2 * 2 ^ (a - b)).
  { rewrite Hx', Hk. apply Qlt_shift_div_r; [assumption|].
    unfold Qdiv.
    assert (2 * (2 ^ a * / 2 ^ b) * inject_Z (Z.pos d)
            == (2 * 2 ^ a) * (inject_Z (Z.pos d) / 2 ^ b)) as ->
      by (unfold Qdiv; ring).
    assert (1 <= inject_Z (Z.pos d) / 2 ^ b)
      by (apply Qle_shift_div_l; [assumption | lra]).
    nra. }
  assert (Hlo : 2 ^ (a - b) < 2 * (n # d)).
  { rewrite Hx', Hk. apply Qlt_shift_div_r; [assumption|].
    assert (2 * (inject_Z n / inject_Z (Z.pos d)) * 2 ^ b
            == (2 * 2 ^ b) * inject_Z n / inject_Z (Z.pos d)) as ->
      by (unfold Qdiv; ring).
    apply Qlt_shift_div_l; [assumption|]. nra. }
  destruct (Qle_bool (2 ^ (a - b)) (n # d)) eqn:E.
  - apply Qle_bool_iff in E. split; [assumption|]. rewrite pow2_succ. assumption.
  - assert (n # d < 2 ^ (a - b)) as Hlt.
    { apply Qnot_le_lt. intros H. apply Qle_bool_iff in H. congruence. }
    replace (a - b - 1 + 1)%Z with (a - b)%Z by lia.
    split; [|assumption].
    assert (2 ^ (a - b) == 2 * 2 ^ (a - b - 1)) as Hs.
    { rewrite <- pow2_succ.
      replace (a - b - 1 + 1)%Z with (a - b)%Z by lia. reflexivity. }
    lra.
Qed.

Lemma ilog2_mono (x y : Q) : 0 < x -> x <= y -> (ilog2 x <= ilog2 y)%Z.
Proof.
  intros Hx Hxy.
  destruct (ilog2_spec x Hx) as [H1 _].
  destruct (ilog2_spec y) as [_ H2]; [lra|].
  assert (2 ^ ilog2 x < 2 ^ (ilog2 y + 1)) as H by lra.
  apply pow2_lt_inv in H. lia.
Qed.

Lemma scaled_bounds (x : Q) :
  0 < x ->
  inject_Z (2 ^ 52) <= x / 2 ^ (ilog2 x - 52) /\
  x / 2 ^ (ilog2 x - 52) <= inject_Z (2 ^ 53).
Proof.
  intros Hx. destruct (ilog2_spec x Hx) as [H1 H2].
  pose proof (pow2_pos (ilog2 x - 52)) as Hu.
  assert (2 ^ ilog2 x == inject_Z (2 ^ 52) * 2 ^ (ilog2 x - 52)) as E1.
  { rewrite <- pow2_inject by lia. rewrite <- Qpower_plus by discriminate.
    replace (52 + (ilog2 x - 52))%Z with (ilog2 x) by lia. reflexivity. }
  assert (2 ^ (ilog2 x + 1) == inject_Z (2 ^ 53) * 2 ^ (ilog2 x - 52)) as E2.
  { rewrite <- pow2_inject by lia. rewrite <- Qpower_plus by discriminate.
    replace (53 + (ilog2 x - 52))%Z with (ilog2 x + 1)%Z by lia. reflexivity. }
  split.
  - apply Qle_shift_div_l; [assumption | lra].
  - apply Qle_shift_div_r; [assumption | lra].
Qed.

Lemma round_pos_bounds (x : Q) :
  0 < x -> 2 ^ ilog2 x <= round_pos x /\ round_pos x <= 2 ^ (ilog2 x + 1).
Proof.
  intros Hx. destruct (scaled_bounds x Hx) as [H1 H2].
  pose proof (pow2_pos (ilog2 x - 52)) as Hu.
  apply rne_ge_Z in H1. apply rne_le_Z in H2.
  rewrite Zle_Qle in H1, H2.
  unfold round_pos. cbv zeta.
  assert (2 ^ ilog2 x == inject_Z (2 ^ 52) * 2 ^ (ilog2 x - 52)) as E1.
  { rewrite <- pow2_inject by lia. rewrite <- Qpower_plus by discriminate.
    replace (52 + (ilog2 x - 52))%Z with (ilog2 x) by lia. reflexivity. }
  assert (2 ^ (ilog2 x + 1) == inject_Z (2 ^ 53) * 2 ^ (ilog2 x - 52)) as E2.
  { rewrite <- pow2_inject by lia. rewrite <- Qpower_plus by discriminate.
    replace (53 + (ilog2 x - 52))%Z with (ilog2 x + 1)%Z by lia. reflexivity. }
  rewrite E1, E2. split; nra.
Qed.

Lemma round_pos_mono (x y : Q) : 0 < x -> x <= y -> round_pos x <= round_pos y.
Proof.
  intros Hx Hxy. assert (0 < y) as Hy by lra.
  pose proof (ilog2_mono x y Hx Hxy) as Hk.
  destruct (Z.eq_dec (ilog2 x) (ilog2 y)) as [E|NE].
  - unfold round_pos. cbv zeta. rewrite E.
    pose proof (pow2_pos (ilog2 y - 52)) as Hu.
    assert (x / 2 ^ (ilog2 y - 52) <= y / 2 ^ (ilog2 y - 52)) as Hs.
    { apply Qle_shift_div_l; [assumption|].
      assert (x / 2 ^ (ilog2 y - 52) * 2 ^ (ilog2 y - 52) == x) as -> by (field; lra).
      assumption. }
    apply rne_mono in Hs. rewrite Zle_Qle in Hs. nra.
  - destruct (round_pos_bounds x Hx) as [_ Hxb].
    destruct (round_pos_bounds y Hy) as [Hyb _].
    assert (2 ^ (ilog2 x + 1) <= 2 ^ ilog2 y) by (apply pow2_le; lia).
    lra.
Qed.

Lemma round_pos_gt0 (x : Q) : 0 < x -> 0 < round_pos x.
Proof.
  intros Hx. destruct (round_pos_bounds x Hx) as [H _].
  pose proof (pow2_pos (ilog2 x)). lra.
Qed.

Lemma round_nonneg (x : Q) : 0 <= x -> 0 <= round x.
Proof.
  intros Hx. unfold round.
  destruct (Qcompare_spec x 0) as [E|L|G]; [lra | lra |].
  apply Qlt_le_weak, round_pos_gt0, G.
Qed.

Lemma round_mono (x y : Q) : 0 <= x -> x <= y -> round x <= round y.
Proof.
  intros Hx Hxy. unfold round.
  destruct (Qcompare_spec x 0) as [Ex|Lx|Gx]; [| lra |].
  - destruct (Qcompare_spec y 0) as [Ey|Ly|Gy]; [lra | lra |].
    apply Qlt_le_weak, round_pos_gt0, Gy.
  - destruct (Qcompare_spec y 0) as [Ey|Ly|Gy]; [lra | lra |].
    now apply round_pos_mono.
Qed.

Lemma round_1 : round 1 == 1.
Proof. vm_compute. reflexivity. Qed.

Lemma round_90 : round 90 == 90.
Proof. vm_compute. reflexivity. Qed.

Lemma trunc_nonneg_mono (x y : Q) :
  0 <= x -> x <= y -> (trunc x <= trunc y)%Z.
Proof.
  intros Hx Hxy. unfold trunc.
  assert (Qle_bool 0 x = true) as -> by (apply Qle_bool_iff; assumption).
  assert (Qle_bool 0 y = true) as -> by (apply Qle_bool_iff; lra).
  now apply Qfloor_resp_le.
Qed.

Lemma div_int_nonneg (c t : Z) :
  (0 <= c)%Z -> (0 < t)%Z -> 0 <= inject_Z c / inject_Z t.
Proof.
  intros Hc Ht. apply Qle_shift_div_l.
  - rewrite <- (Zlt_Qlt 0). assumption.
  - rewrite Qmult_0_l. rewrite <- (Zle_Qle 0). assumption.
Qed.

Lemma div_int_mono (c c' t : Z) :
  (c <= c')%Z -> (0 < t)%Z -> inject_Z c / inject_Z t <= inject_Z c' / inject_Z t.
Proof.
  intros Hc Ht. 
  assert (0 < inject_Z t) as HT by (rewrite <- (Zlt_Qlt 0); assumption).
  apply Qle_shift_div_l; [assumption|].
  assert (inject_Z c / inject_Z t * inject_Z t == inject_Z c) as -> by (field; lra).
  rewrite <- Zle_Qle. assumption.
Qed.
End Float64_facts.

Section py_pct_facts.
Local Open Scope Q_scope.

Lemma py_pct_mono (c c' t : Z) :
  (0 <= c)%Z -> (c <= c')%Z -> (0 < t)%Z -> (py_pct c t <= py_pct c' t)%Z.
Proof.
  intros Hc Hcc Ht. unfold py_pct, Float64.mul, Float64.div_int.
  pose proof (div_int_nonneg c t Hc Ht) as H0.
  pose proof (div_int_mono c c' t Hcc Ht) as H1.
  pose proof (round_nonneg _ H0) as H2.
  pose proof (round_mono _ _ H0 H1) as H3.
  apply trunc_nonneg_mono.
  - apply round_nonneg. nra.
  - apply round_mono; nra.
Qed.

Lemma py_pct_nonneg (c t : Z) : (0 <= c)%Z -> (0 < t)%Z -> (0 <= py_pct c t)%Z.
Proof.
  intros Hc Ht. unfold py_pct, Float64.mul, Float64.div_int.
  pose proof (div_int_nonneg c t Hc Ht) as H0.
  pose proof (round_nonneg _ H0) as H2.
  assert (0 <= Float64.round (inject_Z c / inject_Z t) * 90) as H4 by nra.
  pose proof (round_nonneg _ H4) as H5.
  exact (trunc_nonneg_mono 0 _ (Qle_refl 0) H5).
Qed.

Lemma py_pct_le_90 (c t : Z) :
  (0 <= c)%Z -> (c <= t)%Z -> (0 < t)%Z -> (py_pct c t <= 90)%Z.
Proof.
  intros Hc Hct Ht. unfold py_pct, Float64.mul, Float64.div_int.
  pose proof (div_int_nonneg c t Hc Ht) as H0.
  assert (inject_Z c / inject_Z t <= 1) as H1.
  { apply Qle_shift_div_r; [rewrite <- (Zlt_Qlt 0); assumption|].
    rewrite Qmult_1_l. rewrite <- Zle_Qle. assumption. }
  pose proof (round_nonneg _ H0) as H2.
  pose proof (round_mono _ _ H0 H1) as H3. rewrite round_1 in H3.
  assert (0 <= Float64.round (inject_Z c / inject_Z t) * 90) as H4 by nra.
  assert (Float64.round (inject_Z c / inject_Z t) * 90 <= 90) as H5 by nra.
  pose proof (round_mono _ _ H4 H5) as H6. rewrite round_90 in H6.
  exact (trunc_nonneg_mono _ 90 (round_nonneg _ H4) H6).
Qed.
End py_pct_facts.

(** The rational model and the hardware floats agree wherever they were
    evaluated side by side: all [0 <= completed < 48], [1 <= total <= 48]. *)
Lemma py_pct_matches_hardware :
  forallb (λ '(c, t), py_pct c t =? prim_pct c t) (pct_grid 48) = true.
Proof. vm_compute. reflexivity. Qed.

(** ** Strings and paths *)

Lemma prefix_spec (s1 s2 : string) :
  String.prefix s1 s2 = true ↔ ∃ post, s2 = s1 +:+ post.
Proof.
  revert s2. induction s1 as [|a s1 IH]; intros s2; simpl.
  - split; [intros _; by exists s2 | by destruct s2].
  - destruct s2 as [|b s2]; simpl.
    + split; [done | intros [post H]; discriminate].
    + destruct (Ascii.ascii_dec a b) as [->|Hab].
      * rewrite IH. split; intros [post H]; exists post.
        -- by rewrite H.
        -- by injection H.
      * split; [done | intros [post H]; injection H; congruence].
Qed.

Lemma py_in_spec (needle hay : string) :
  py_in needle hay = true ↔ ∃ pre post, hay = pre +:+ needle +:+ post.
Proof.
  induction hay as [|c hay IH]; cbn [py_in].
  - rewrite orb_false_r, prefix_spec. split.
    + intros [post H]. by exists "", post.
    + intros [pre [post H]]. destruct pre; [by exists post | discriminate].
  - rewrite orb_true_iff, IH, prefix_spec. split.
    + intros [[post H] | [pre [post H]]].
      * by exists "", post.
      * exists (String c pre), post. simpl. by rewrite H.
    + intros [pre [post H]]. destruct pre as [|c' pre]; simpl in H.
      * left. by exists post.
      * right. injection H as _ H. by exists pre, post.
Qed.

Lemma string_app_length (s t : string) :
  String.length (s +:+ t) = (String.length s + String.length t)%nat.
Proof. induction s as [|a s IH]; [done | simpl; by rewrite IH]. Qed.

Lemma string_app_inj_r (s1 s2 t : string) : s1 +:+ t = s2 +:+ t → s1 = s2.
Proof.
  revert s2. induction s1 as [|a s1 IH]; intros [|b s2] H.
  - done.
  - apply (f_equal String.length) in H.
    rewrite !string_app_length in H. simpl in H. lia.
  - apply (f_equal String.length) in H.
    rewrite !string_app_length in H. simpl in H. lia.
  - injection H as -> H'. f_equal. by apply IH.
Qed.

Lemma path_join_inj (a b b' : string) : path_join a b = path_join a b' → b = b'.
Proof.
  unfold path_join. case_decide as E; intros Hb.
  - by apply String.app_inj in Hb.
  - by do 2 apply String.app_inj in Hb.
Qed.

Lemma path_join_nonempty (a b : string) : path_join a b ≠ "".
Proof.
  unfold path_join. case_decide as E.
  - done.
  - destruct a; [|done]. done.
Qed.

Lemma zip_path_of_inj (hm id1 id2 : string) :
  zip_path_of hm id1 = zip_path_of hm id2 → id1 = id2.
Proof.
  unfold zip_path_of. intros H. apply path_join_inj in H.
  apply String.app_inj in H. by apply string_app_inj_r in H.
Qed.

(** ** The hook on a present record *)

Lemma progress_hook_present (download_id : string) (total completed : Z)
    (d : hook_event) (reg : gmap string Job) (j : Job) :
  total ≠ 0 →
  progress_hook download_id total d completed (<[download_id := j]> reg)
  = HookOk (hook_count d completed)
           (<[download_id := hook_job total d completed j]> reg).
Proof.
  intros Ht. unfold progress_hook, hook_count, hook_job.
  rewrite lookup_insert_eq.
  repeat case_decide; try done; by rewrite ?insert_insert_eq.
Qed.

Lemma hook_job_meta (total completed : Z) (d : hook_event) (j : Job) :
  same_meta j (hook_job total d completed j).
Proof. unfold same_meta, hook_job. by repeat case_decide. Qed.

Lemma same_meta_refl (j : Job) : same_meta j j.
Proof. by unfold same_meta. Qed.

Lemma same_meta_trans (j1 j2 j3 : Job) :
  same_meta j1 j2 → same_meta j2 j3 → same_meta j1 j3.
Proof. unfold same_meta. intros (?&?&?&?) (?&?&?&?). repeat split; congruence. Qed.

Lemma hook_count_finished (d : hook_event) (completed : Z) :
  hook_count d completed = completed + count_finished [d].
Proof.
  unfold hook_count, count_finished. simpl.
  case_bool_decide as E; simpl.
  - rewrite E. repeat case_decide; done || lia.
  - repeat case_decide; done || lia.
Qed.

Lemma count_finished_app (l1 l2 : list hook_event) :
  count_finished (l1 ++ l2) = count_finished l1 + count_finished l2.
Proof.
  unfold count_finished. rewrite List.filter_app, length_app. lia.
Qed.

Lemma count_finished_cons (d : hook_event) (l : list hook_event) :
  count_finished (d :: l) = count_finished [d] + count_finished l.
Proof. apply (count_finished_app [d] l). Qed.

Lemma count_finished_nonneg (l : list hook_event) : 0 ≤ count_finished l.
Proof. unfold count_finished. lia. Qed.

(** ** The loops on a present record *)

Lemma scan_events_app (total : Z) (l1 l2 : list hook_event) (c : Z) (j : Job) :
  scan_events total (l1 ++ l2) c j
  = scan_events total l1 c j
    ++ scan_events total l2 (c + count_finished l1) (end_job total l1 c j).
Proof.
  revert c j. induction l1 as [|d l1 IH]; intros c j; simpl.
  - f_equal. unfold count_finished. simpl. lia.
  - rewrite IH. do 3 f_equal.
    rewrite (count_finished_cons d l1), hook_count_finished. lia.
Qed.

Lemma end_job_app (total : Z) (l1 l2 : list hook_event) (c : Z) (j : Job) :
  end_job total (l1 ++ l2) c j
  = end_job total l2 (c + count_finished l1) (end_job total l1 c j).
Proof.
  revert c j. induction l1 as [|d l1 IH]; intros c j; simpl.
  - f_equal. unfold count_finished. simpl. lia.
  - rewrite IH. f_equal.
    rewrite (count_finished_cons d l1), hook_count_finished. lia.
Qed.

Lemma deliver_present (download_id : string) (total : Z)
    (evs : list hook_event) (c : Z) (reg : gmap string Job) (j : Job) :
  total ≠ 0 →
  deliver download_id total evs c (<[download_id := j]> reg)
  = (c + count_finished evs,
     <[download_id := end_job total evs c j]> reg,
     (λ j', <[download_id := j']> reg) <$> scan_events total evs c j,
     None).
Proof.
  intros Ht. revert c j. induction evs as [|d evs IH]; intros c j.
  - simpl. do 3 f_equal. unfold count_finished. simpl. lia.
  - cbn [deliver]. rewrite progress_hook_present by done.
    rewrite IH. cbn [scan_events end_job fmap list_fmap].
    rewrite (count_finished_cons d evs), hook_count_finished.
    do 3 f_equal. lia.
Qed.

Lemma fetch_all_present (env : Env) (opts : ydl_opts) (download_id : string)
    (total : Z) (i : nat) (urls : list string) (c : Z) (errs : list string)
    (reg : gmap string Job) (j : Job) :
  total ≠ 0 →
  let evs := fetch_events env opts i urls in
  fetch_all env opts download_id total i urls c errs (<[download_id := j]> reg)
  = (c + count_finished evs,
     errs ++ fetch_errors env opts i urls,
     <[download_id := end_job total evs c j]> reg,
     (λ j', <[download_id := j']> reg) <$> scan_events total evs c j).
Proof.
  intros Ht. revert i c errs j.
  induction urls as [|url rest IH]; intros i c errs j; cbn zeta.
  - simpl. rewrite app_nil_r. do 3 f_equal. unfold count_finished. simpl. lia.
  - cbn [fetch_all fetch_events fetch_errors].
    destruct (ydl_download env opts i url) as [evs exc]. cbn [fst snd].
    rewrite deliver_present by done.
    specialize (IH (S i)). cbn zeta in IH. rewrite IH.
    rewrite scan_events_app, end_job_app, count_finished_app, fmap_app.
    destruct exc as [m|]; rewrite <- ?app_assoc; simpl; do 3 f_equal; lia.
Qed.

(** ** The whole run on a present record *)

Lemma download_videos_present (env : Env) (urls : list string)
    (download_id quality : string) (reg : gmap string Job) (j : Job) :
  download_videos env urls download_id quality (<[download_id := j]> reg)
  = run_present env urls download_id quality reg j.
Proof.
  unfold download_videos, run_present.
  destruct (mkdir env _) as [e|]; [done|].
  destruct (ydl_init env _) as [e|]; [done|].
  destruct urls as [|url rest].
  - cbn [fetch_all fetch_events fetch_errors scan_events end_job fmap list_fmap].
    destruct (zip_fault env _) as [e|]; [done|].
    unfold final_update. rewrite lookup_insert_eq, insert_insert_eq. done.
  - assert (Z.of_nat (length (url :: rest)) ≠ 0) as Ht by (simpl; lia).
    rewrite (fetch_all_present env _ download_id _ 0 (url :: rest) 0 [] reg j Ht).
    cbn zeta. rewrite Z.add_0_l, app_nil_l.
    destruct (zip_fault env _) as [e|]; [done|].
    unfold final_update. rewrite lookup_insert_eq, insert_insert_eq. done.
Qed.

Lemma scan_events_meta (total : Z) (evs : list hook_event) (c : Z) (j : Job) :
  Forall (same_meta j) (scan_events total evs c j)
  ∧ same_meta j (end_job total evs c j).
Proof.
  revert c j. induction evs as [|d evs IH]; intros c j; simpl.
  - split; [constructor | apply same_meta_refl].
  - pose proof (hook_job_meta total c d j) as Hm.
    destruct (IH (hook_count d c) (hook_job total d c j)) as [IH1 IH2].
    split.
    + constructor; [done|].
      eapply Forall_impl; [exact IH1|]. intros j'. by apply same_meta_trans.
    + by eapply same_meta_trans.
Qed.

Lemma chain_impl {A : Type} (R R' : A → A → Prop) (x : A) (l : list A) :
  (∀ a b, R a b → R' a b) → chain R x l → chain R' x l.
Proof.
  intros HR. revert x. induction l as [|y l IH]; intros x; simpl; [done|].
  intros [H1 H2]. split; auto.
Qed.

Lemma chain_fmap {A B : Type} (R : B → B → Prop) (f : A → B) (x : A)
    (l : list A) :
  chain (λ a b, R (f a) (f b)) x l → chain R (f x) (f <$> l).
Proof.
  revert x. induction l as [|y l IH]; intros x; simpl; [done|].
  intros [H1 H2]. split; auto.
Qed.

Lemma chain_snoc {A : Type} (R : A → A → Prop) (x y : A) (l : list A) :
  (∀ a, R a y) → chain R x l → chain R x (l ++ [y]).
Proof.
  intros Hy. revert x. induction l as [|z l IH]; intros x; simpl.
  - intros _. split; [apply Hy | done].
  - intros [H1 H2]. split; auto.
Qed.

Lemma hook_job_progress (total c : Z) (d : hook_event) (j : Job) :
  0 ≤ c → 0 < total → progress j ≤ py_pct c total →
  progress j ≤ progress (hook_job total d c j)
  ∧ progress (hook_job total d c j) ≤ py_pct (hook_count d c) total.
Proof.
  intros Hc Ht Hp. unfold hook_job, hook_count.
  repeat case_decide; simpl; split; try lia.
  etrans; [exact Hp|]. apply py_pct_mono; lia.
Qed.

Lemma hook_count_ge (d : hook_event) (c : Z) : c ≤ hook_count d c.
Proof. unfold hook_count. repeat case_decide; lia. Qed.

(** Within one run the progress written by the hook never goes down. *)
Lemma scan_events_progress (total : Z) (evs : list hook_event) (c : Z)
    (j : Job) :
  0 ≤ c → 0 < total → progress j ≤ py_pct c total →
  chain (λ a b, progress a ≤ progress b) j (scan_events total evs c j).
Proof.
  intros Hc Ht. revert c j Hc.
  induction evs as [|d evs IH]; intros c j Hc Hp; simpl; [done|].
  destruct (hook_job_progress total c d j Hc Ht Hp) as [H1 H2].
  split; [done|]. apply IH; [|done].
  pose proof (hook_count_ge d c). lia.
Qed.

(** While no more ['finished'] events have been seen than there are urls,
    the hook writes at most 90. *)
Lemma scan_events_le_90 (total : Z) (evs : list hook_event) (c : Z) (j : Job) :
  0 ≤ c → 0 < total → c + count_finished evs ≤ total → progress j ≤ 90 →
  Forall (λ j', progress j' ≤ 90) (scan_events total evs c j).
Proof.
  intros Hc Ht. revert c j Hc.
  induction evs as [|d evs IH]; intros c j Hc Hn Hp; simpl; [constructor|].
  rewrite (count_finished_cons d evs) in Hn.
  pose proof (count_finished_nonneg evs) as Hevs.
  pose proof (count_finished_nonneg [d]) as Hd.
  assert (progress (hook_job total d c j) ≤ 90) as Hp'.
  { unfold hook_job. repeat case_decide; simpl; [|done|done].
    apply py_pct_le_90; lia. }
  constructor; [done|]. apply IH; [| |done].
  - pose proof (hook_count_ge d c). lia.
  - rewrite hook_count_finished. lia.
Qed.

(** ** Every run is a chain of locked blocks *)

Lemma chain_app {A : Type} (R : A → A → Prop) (x : A) (l1 l2 : list A) :
  chain R x l1 → chain R (last_of x l1) l2 → chain R x (l1 ++ l2).
Proof.
  revert x. induction l1 as [|y l1 IH]; intros x; simpl; [done|].
  intros [H1 H2] H3. split; auto.
Qed.

Lemma last_of_app {A : Type} (x : A) (l1 l2 : list A) :
  last_of x (l1 ++ l2) = last_of (last_of x l1) l2.
Proof. revert x. induction l1 as [|y l1 IH]; intros x; simpl; auto. Qed.

Lemma deliver_chain (hm download_id : string) (total : Z)
    (evs : list hook_event) (c : Z) (reg : gmap string Job) :
  chain (step hm) reg (deliver download_id total evs c reg).1.2
  ∧ (deliver download_id total evs c reg).1.1.2
    = last_of reg (deliver download_id total evs c reg).1.2.
Proof.
  revert c reg. induction evs as [|d evs IH]; intros c reg; [done|].
  cbn [deliver].
  destruct (progress_hook download_id total d c reg) as [c' reg'|c' msg] eqn:E;
    [|done].
  specialize (IH c' reg').
  destruct (deliver download_id total evs c' reg') as [[[c2 reg2] tr] exc].
  cbn [fst snd] in *. destruct IH as [IH1 IH2].
  split; [|done]. split; [|done]. by eapply step_hook.
Qed.

Lemma fetch_all_chain (hm : string) (env : Env) (opts : ydl_opts)
    (download_id : string) (total : Z) (i : nat) (urls : list string) (c : Z)
    (errs : list string) (reg : gmap string Job) :
  chain (step hm) reg
        (fetch_all env opts download_id total i urls c errs reg).2
  ∧ (fetch_all env opts download_id total i urls c errs reg).1.2
    = last_of reg (fetch_all env opts download_id total i urls c errs reg).2.
Proof.
  revert i c errs reg.
  induction urls as [|url rest IH]; intros i c errs reg; [done|].
  cbn [fetch_all].
  destruct (ydl_download env opts i url) as [evs exc].
  pose proof (deliver_chain hm download_id total evs c reg) as [D1 D2].
  destruct (deliver download_id total evs c reg) as [[[c1 reg1] tr1] hexc].
  cbn [fst snd] in D1, D2.
  match goal with
  | |- context [fetch_all env opts download_id total (S i) rest c1 ?e reg1] =>
      specialize (IH (S i) c1 e reg1);
      destruct (fetch_all env opts download_id total (S i) rest c1 e reg1)
        as [[[c2 errs2] reg2] tr2]
  end.
  cbn [fst snd] in *. destruct IH as [IH1 IH2]. split.
  - apply chain_app; [done|]. by rewrite <- D2.
  - by rewrite last_of_app, <- D2.
Qed.

Lemma download_videos_chain (env : Env) (urls : list string)
    (download_id quality : string) (reg : gmap string Job) :
  let run := download_videos env urls download_id quality reg in
  chain (step (home env)) reg (run_trace run)
  ∧ run_final run = last_of reg (run_trace run).
Proof.
  cbv zeta. unfold download_videos.
  destruct (mkdir env _) as [e|]; [done|].
  destruct (ydl_init env _) as [e|]; [done|].
  match goal with
  | |- context [fetch_all env ?o download_id ?t 0 urls 0 [] reg] =>
      pose proof (fetch_all_chain (home env) env o download_id t 0 urls 0 [] reg)
        as [F1 F2];
      destruct (fetch_all env o download_id t 0 urls 0 [] reg)
        as [[[c errs] reg1] tr]
  end.
  cbn [fst snd] in F1, F2.
  destruct (zip_fault env _) as [e|]; [done|].
  destruct (final_update _ _ _ _ _ _) as [reg2|] eqn:E; [|done].
  cbn [run_trace run_final]. split.
  - apply chain_app; [done|]. split; [|done]. rewrite <- F2. by eapply step_final.
  - by rewrite last_of_app.
Qed.

Lemma chain_reachable (hm : string) (reg : gmap string Job)
    (tr : list (gmap string Job)) :
  reachable hm reg → chain (step hm) reg tr → Forall (reachable hm) tr.
Proof.
  revert reg. induction tr as [|r tr IH]; intros reg Hreg; simpl; [constructor|].
  intros [H1 H2].
  assert (reachable hm r) as Hr by (eapply rtc_r; eauto).
  constructor; [done|]. by eapply IH.
Qed.

(** Every registry state a run passes through is a reachable one. *)
Lemma run_trace_reachable (env : Env) (urls : list string)
    (download_id quality : string) (reg : gmap string Job) :
  reachable (home env) reg →
  Forall (reachable (home env))
         (run_trace (download_videos env urls download_id quality reg)).
Proof.
  intros Hreg. eapply chain_reachable; [done|].
  apply download_videos_chain.
Qed.

(** ** What every locked block preserves *)

Lemma job_inv_meta (j j' : Job) : same_meta j j' → job_inv j → job_inv j'.
Proof.
  unfold same_meta, job_inv, populated. intros (Hs & He & Hz & _).
  rewrite Hs, He, Hz. done.
Qed.

Lemma job_inv_new (now : Q) : job_inv (new_job now).
Proof. right. done. Qed.

Lemma job_inv_finish (hm download_id : string) (c total : Z)
    (errs : list string) (j : Job) :
  job_inv (finish_job (zip_path_of hm download_id) c total errs j).
Proof.
  left. split; [done|]. eexists. split; [done|]. apply path_join_nonempty.
Qed.

Lemma reg_inv_insert (download_id : string) (j : Job) (reg : gmap string Job) :
  job_inv j → reg_inv reg → reg_inv (<[download_id := j]> reg).
Proof.
  intros Hj Hreg id' j'. rewrite lookup_insert. case_decide.
  - by intros [= <-].
  - apply Hreg.
Qed.

Lemma step_inv (hm : string) (reg reg' : gmap string Job) :
  step hm reg reg' → reg_inv reg → reg_inv reg'.
Proof.
  intros Hstep Hreg. destruct Hstep as [id now reg|id total c c' d reg reg' H|
                                        id c total errs reg reg' H].
  - apply reg_inv_insert; [apply job_inv_new | done].
  - unfold progress_hook in H.
    destruct (reg !! id) as [j|] eqn:E; repeat case_decide; try done;
      injection H as <- <-; try done;
      (apply reg_inv_insert; [|done]);
      apply (job_inv_meta j); (done || by eapply Hreg).
  - unfold final_update in H. destruct (reg !! id) as [j|] eqn:E; [|done].
    injection H as <-. apply reg_inv_insert; [apply job_inv_finish | done].
Qed.

Lemma reachable_inv (hm : string) (reg : gmap string Job) :
  reachable hm reg → reg_inv reg.
Proof.
  unfold reachable. intros H.
  apply (rtc_ind_r (R := step hm) (λ r, reg_inv r) ∅); [| |done].
  - intros id j. by rewrite lookup_empty.
  - intros r r' _ Hs IH. by eapply step_inv.
Qed.

(** The shape of the run of a created job: a sequence of states in which
    the record is still as created in status, archive location and errors,
    followed, exactly when the run returns, by the one completing state. *)
Lemma run_shape (env : Env) (urls : list string) (download_id quality : string)
    (now : Q) (reg : gmap string Job) :
  let run := download_videos env urls download_id quality
               (<[download_id := new_job now]> reg) in
  ∃ tr,
    Forall (λ r, ∃ j, r !! download_id = Some j ∧ status j = "starting"
                      ∧ zip_path j = None ∧ errors j = []) tr
    ∧ ((∃ msg, run_outcome run = Raised msg ∧ run_trace run = tr)
       ∨ (run_outcome run = Returned
          ∧ run_trace run = tr ++ [run_final run]
          ∧ ∃ jf, run_final run !! download_id = Some jf
                  ∧ status jf = "completed"
                  ∧ zip_path jf = Some (zip_path_of (home env) download_id)
                  ∧ errors jf = run_errors run)).
Proof.
  cbv zeta. rewrite download_videos_present. unfold run_present.
  set (total := Z.of_nat (length urls)).
  set (evs := fetch_events env _ 0 urls).
  assert (Forall (λ r, ∃ j, r !! download_id = Some j ∧ status j = "starting"
                            ∧ zip_path j = None ∧ errors j = [])
            ((λ j', <[download_id := j']> reg)
               <$> scan_events total evs 0 (new_job now))) as Hmid.
  { apply Forall_fmap.
    destruct (scan_events_meta total evs 0 (new_job now)) as [Hall _].
    eapply Forall_impl; [exact Hall|].
    intros j (Hs & He & Hz & _). exists j.
    split; [apply lookup_insert_eq | done]. }
  destruct (mkdir env _) as [e|].
  { exists []. split; [constructor|]. left. by eexists. }
  destruct (ydl_init env _) as [e|].
  { exists []. split; [constructor|]. left. by eexists. }
  destruct (zip_fault env _) as [e|].
  { eexists. split; [exact Hmid|]. left. by eexists. }
  eexists. split; [exact Hmid|]. right. cbn [run_outcome run_trace run_final run_errors].
  split; [done|]. split; [done|]. eexists. split; [apply lookup_insert_eq|].
  done.
Qed.

(** ** The archive *)

Lemma write_zip_elem (entries : list (string * node)) (f : string)
    (data : list Byte.byte) :
  (f, data) ∈ write_zip entries ↔ (f, File data) ∈ entries.
Proof.
  induction entries as [|[g n] rest IH]; simpl.
  - split; intros H; by apply elem_of_nil in H.
  - destruct n as [d|ch|]; simpl; rewrite ?elem_of_cons, IH.
    + split; (intros [H|H]; [left | by right]).
      * by injection H as -> ->.
      * by injection H as -> ->.
    + split; [by right | intros [H|H]; [discriminate | done]].
    + split; [by right | intros [H|H]; [discriminate | done]].
Qed.

Lemma write_zip_names (entries : list (string * node)) :
  (write_zip entries).*1 = (List.filter (λ e, isfile e.2) entries).*1.
Proof.
  induction entries as [|[g n] rest IH]; [done|].
  cbn [write_zip List.filter snd]. destruct (isfile n); [|done].
  cbn [fmap list_fmap fst]. by rewrite <- IH.
Qed.

Lemma write_zip_app (l1 l2 : list (string * node)) :
  write_zip (l1 ++ l2) = write_zip l1 ++ write_zip l2.
Proof.
  induction l1 as [|[g n] rest IH]; simpl; [done|].
  destruct (isfile n); simpl; by rewrite ?IH.
Qed.

(** ** Validation *)

Lemma is_valid_youtube_url_spec (url : string) :
  is_valid_youtube_url url = true ↔
  (∃ pre post, url = pre +:+ "youtube.com" +:+ post)
  ∨ (∃ pre post, url = pre +:+ "youtu.be" +:+ post).
Proof.
  unfold is_valid_youtube_url. by rewrite orb_true_iff, !py_in_spec.
Qed.

(** ** Evaluations *)

(** The binary64 values of 1/3, 1/10 and 7/10, and four ties. *)
Example round_values :
  Qred (Float64.div_int 1 3) = (6004799503160661 # 18014398509481984)%Q
  ∧ Qred (Float64.div_int 1 10) = (3602879701896397 # 36028797018963968)%Q
  ∧ Qred (Float64.div_int 7 10) = (3152519739159347 # 4503599627370496)%Q
  ∧ Qred (Float64.round (inject_Z (2 ^ 53 + 1))) = inject_Z (2 ^ 53)
  ∧ Qred (Float64.round (inject_Z (2 ^ 53 + 3))) = inject_Z (2 ^ 53 + 4)
  ∧ Qred (Float64.round (inject_Z (2 ^ 54 + 2))) = inject_Z (2 ^ 54)
  ∧ Qred (Float64.round (inject_Z (2 ^ 54 + 6))) = inject_Z (2 ^ 54 + 8)
  ∧ Float64.trunc (-5 # 2) = -2.
Proof. vm_compute. repeat split. Qed.

Example py_pct_values :
  py_pct 0 3 = 0 ∧ py_pct 1 3 = 30 ∧ py_pct 2 3 = 60 ∧ py_pct 3 3 = 90
  ∧ py_pct 7 10 = 62 ∧ spec_pct 7 10 = 63 ∧ py_pct 13 45 = 25
  ∧ spec_pct 13 45 = 26 ∧ py_pct 2 1 = 180.
Proof. vm_compute. repeat split. Qed.

(** On the evaluated grid the float result is the exact floor or one
    below it. *)
Example py_pct_near_floor :
  forallb (λ '(c, t), (spec_pct c t - 1 <=? py_pct c t)
                      && (py_pct c t <=? spec_pct c t)) (pct_grid 48) = true.
Proof. vm_compute. reflexivity. Qed.

Example is_valid_youtube_url_values :
  is_valid_youtube_url "https://www.youtube.com/watch?v=aaaaaaaaaaa" = true
  ∧ is_valid_youtube_url "https://youtu.be/bbbbbbbbbbb" = true
  ∧ is_valid_youtube_url "see youtube.com" = true
  ∧ is_valid_youtube_url "https://vimeo.com/76979871" = false
  ∧ is_valid_youtube_url "" = false.
Proof. vm_compute. repeat split. Qed.

(** Three urls, each fetched with one finished file: what polling sees. *)
Example steady_run_polls :
  let start := <["3f2a9c1e" := new_job 0]> ∅ in
  let run := download_videos steady_env three_urls "3f2a9c1e" "720" start in
  polls "3f2a9c1e" (start :: run_trace run)
  = [Some ("starting", 0); Some ("starting", 0); Some ("starting", 0);
     Some ("starting", 30); Some ("starting", 30); Some ("starting", 60);
     Some ("starting", 60); Some ("completed", 100)]
  ∧ current <$> run_final run !! "3f2a9c1e" = Some "Completed! 3/3 downloaded".
Proof. vm_compute. split; reflexivity. Qed.

(** One url with more finished files than urls: progress passes 100 and
    the completing update brings it back to 100. *)
Example playlist_run_polls :
  let start := <["3f2a9c1e" := new_job 0]> ∅ in
  let run := download_videos playlist_env
               ["https://www.youtube.com/playlist?list=PLaaaaaaaa"]
               "3f2a9c1e" "720" start in
  polls "3f2a9c1e" (start :: run_trace run)
  = [Some ("starting", 0); Some ("starting", 0); Some ("starting", 0);
     Some ("starting", 180); Some ("starting", 180); Some ("completed", 100)]
  ∧ current <$> run_final run !! "3f2a9c1e" = Some "Completed! 3/1 downloaded".
Proof. vm_compute. split; reflexivity. Qed.

(** A request, its run, and the archive retrieval afterwards. *)
Example request_run_retrieve :
  let '(resp, reg, th) :=
    start_download uuid_a 0 ("https://vimeo.com/76979871" :: three_urls)
                   "720" ∅ in
  let run := download_videos steady_env three_urls "3f2a9c1e" "720" reg in
  resp = JsonStarted "3f2a9c1e"
  ∧ th = Some (mkThread three_urls "3f2a9c1e" "720")
  ∧ download_zip (λ _, true) reg "3f2a9c1e" = Text "Status: starting" 400
  ∧ download_zip (λ _, true) (run_final run) "3f2a9c1e"
    = SendFile "/home/user/Downloads/youtube_3f2a9c1e.zip"
               "youtube_3f2a9c1e.zip" "application/zip"
  ∧ download_zip (λ _, false) (run_final run) "3f2a9c1e"
    = Text "Zip not found" 404
  ∧ download_zip (λ _, true) (run_final run) "00000000" = Text "Not found" 404
  ∧ run_archive run
    = Some ("/home/user/Downloads/youtube_3f2a9c1e.zip", [("v.mp4", [])]).
Proof. vm_compute. repeat split. Qed.

Example write_zip_sample :
  write_zip sample_dir
  = [("01 - a.mp4", [Byte.x00; Byte.x01]); ("01 - a.en.vtt", [Byte.x03])].
Proof. reflexivity. Qed.

(** * The claims *)

(** C1, as stated, fails: the summary counts ['finished'] events, not
    urls.  With two urls, the first fetch raising and the second succeeding
    while the engine reports two finished files, the job completes with
    one recorded error and the message "Completed! 2/2 downloaded". *)
Lemma C1_counterexample :
  let opts := make_opts (download_dir_of (home two_files_env) "3f2a9c1e") "720" in
  let run := download_videos two_files_env sample_urls "3f2a9c1e" "720"
               (<["3f2a9c1e" := new_job 0]> ∅) in
  (∃ e, (ydl_download two_files_env opts 0 "https://youtu.be/bbbbbbbbbbb").2
        = Some e)
  ∧ (ydl_download two_files_env opts 1
       "https://www.youtube.com/watch?v=aaaaaaaaaaa").2 = None
  ∧ ∃ j, run_final run !! "3f2a9c1e" = Some j
         ∧ status j = "completed"
         ∧ length (errors j) = 1%nat
         ∧ current j = "Completed! 2/2 downloaded"
         ∧ current j ≠ "Completed! 1/2 downloaded".
Proof.
  cbv zeta. split; [by eexists|]. split; [done|].
  rewrite download_videos_present. eexists. split.
  - unfold run_present. cbn. apply lookup_insert_eq.
  - vm_compute. repeat split; discriminate.
Qed.

(** C1, amended: for a job created with exactly two urls, when creating the
    directory, starting the engine and writing the archive raise nothing,
    the fetch of one url raises and the other returns, and exactly one
    ['finished'] event is reported over the two fetches, the run returns
    and leaves the job [completed], at progress 100, with exactly the one
    error message recorded, the message "Completed! 1/2 downloaded" and
    the archive location set. *)
Theorem C1_one_failure_one_success (env : Env)
    (u1 u2 download_id quality : string) (now : Q) (reg : gmap string Job) (e : string) :
  let dir := download_dir_of (home env) download_id in
  let opts := make_opts dir quality in
  let run := download_videos env [u1; u2] download_id quality
               (<[download_id := new_job now]> reg) in
  mkdir env dir = None →
  ydl_init env opts = None →
  zip_fault env (zip_path_of (home env) download_id) = None →
  ((ydl_download env opts 0 u1).2 = Some e
   ∧ (ydl_download env opts 1 u2).2 = None
   ∨ (ydl_download env opts 0 u1).2 = None
     ∧ (ydl_download env opts 1 u2).2 = Some e) →
  count_finished ((ydl_download env opts 0 u1).1
                  ++ (ydl_download env opts 1 u2).1) = 1 →
  run_outcome run = Returned
  ∧ ∃ j, run_final run !! download_id = Some j
         ∧ status j = "completed"
         ∧ progress j = 100
         ∧ errors j = [e]
         ∧ current j = "Completed! 1/2 downloaded"
         ∧ zip_path j = Some (zip_path_of (home env) download_id).
Proof.
  cbv zeta. intros Hmk Hinit Hzip Hfetch Hcount.
  rewrite download_videos_present. unfold run_present.
  rewrite Hmk, Hinit, Hzip. cbn [run_outcome run_final].
  split; [done|]. eexists. split; [apply lookup_insert_eq|].
  cbn [fetch_events fetch_errors]. rewrite app_nil_r, Hcount.
  destruct Hfetch as [[-> ->] | [-> ->]]; repeat split; done.
Qed.

Lemma C1_one_failure_one_success_witness :
  let run := download_videos one_file_env sample_urls "3f2a9c1e" "720"
               (<["3f2a9c1e" := new_job 0]> ∅) in
  run_outcome run = Returned
  ∧ ∃ j, run_final run !! "3f2a9c1e" = Some j
         ∧ status j = "completed"
         ∧ progress j = 100
         ∧ errors j = ["ERROR: Video unavailable"]
         ∧ current j = "Completed! 1/2 downloaded"
         ∧ zip_path j = Some (zip_path_of (home one_file_env) "3f2a9c1e").
Proof.
  apply (C1_one_failure_one_success one_file_env
           "https://youtu.be/bbbbbbbbbbb"
           "https://www.youtube.com/watch?v=aaaaaaaaaaa" "3f2a9c1e" "720" 0 ∅
           "ERROR: Video unavailable").
  - reflexivity.
  - reflexivity.
  - reflexivity.
  - left. split; reflexivity.
  - reflexivity.
Defined.

(** C2, as stated, fails: the program has no status [failed].  When the
    job's directory cannot be created, or the archive cannot be written,
    the exception ends the thread; the record keeps status [starting] and
    an empty error list. *)
Lemma C2_counterexample :
  let reg := <["3f2a9c1e" := new_job 0]> ∅ in
  let run1 := download_videos no_mkdir_env sample_urls "3f2a9c1e" "720" reg in
  let run2 := download_videos no_zip_env sample_urls "3f2a9c1e" "720" reg in
  (∃ msg, run_outcome run1 = Raised msg)
  ∧ (∃ msg, run_outcome run2 = Raised msg)
  ∧ (∃ j, run_final run1 !! "3f2a9c1e" = Some j
          ∧ status j = "starting" ∧ status j ≠ "failed" ∧ errors j = [])
  ∧ (∃ j, run_final run2 !! "3f2a9c1e" = Some j
          ∧ status j = "starting" ∧ status j ≠ "failed" ∧ errors j = []).
Proof.
  cbv zeta. rewrite !download_videos_present.
  split; [by eexists|]. split; [by eexists|]. split.
  - eexists. split; [apply lookup_insert_eq|]. done.
  - eexists. split; [apply lookup_insert_eq|]. vm_compute. done.
Qed.

(** C2, amended: for every run of a created job that an exception ends
    (the directory cannot be created, the engine cannot be started, the
    archive cannot be written), the record keeps the status, the error list
    and the absent archive location it was created with: status
    [starting], no error recorded, no archive location.  The status is
    never [failed]. *)
Theorem C2_internal_error_leaves_job_starting (env : Env) (urls : list string)
    (download_id quality : string) (now : Q) (reg : gmap string Job)
    (msg : string) :
  let run := download_videos env urls download_id quality
               (<[download_id := new_job now]> reg) in
  run_outcome run = Raised msg →
  ∃ j, run_final run !! download_id = Some j
       ∧ status j = "starting" ∧ status j ≠ "failed"
       ∧ errors j = [] ∧ zip_path j = None.
Proof.
  cbv zeta. rewrite download_videos_present. unfold run_present.
  destruct (mkdir env _) as [e|]; cbn [run_outcome run_final].
  { intros _. eexists. split; [apply lookup_insert_eq|]. done. }
  destruct (ydl_init env _) as [e|]; cbn [run_outcome run_final].
  { intros _. eexists. split; [apply lookup_insert_eq|]. done. }
  destruct (zip_fault env _) as [e|]; cbn [run_outcome run_final]; [|done].
  intros _. eexists. split; [apply lookup_insert_eq|].
  match goal with
  | |- context [end_job ?t ?evs ?c ?j] =>
      destruct (scan_events_meta t evs c j) as [_ (Hs & He & Hz & _)]
  end.
  rewrite Hs, He, Hz. done.
Qed.

Lemma C2_internal_error_leaves_job_starting_witness :
  let run := download_videos no_zip_env sample_urls "3f2a9c1e" "720"
               (<["3f2a9c1e" := new_job 0]> ∅) in
  ∃ j, run_final run !! "3f2a9c1e" = Some j
       ∧ status j = "starting" ∧ status j ≠ "failed"
       ∧ errors j = [] ∧ zip_path j = None.
Proof.
  apply (C2_internal_error_leaves_job_starting no_zip_env sample_urls
           "3f2a9c1e" "720" 0 ∅ "[Errno 28] No space left on device").
  reflexivity.
Defined.

(** C3, as stated, fails twice.  First, the value written is computed in
    binary64 and can be one below the exact floor: at 7 finished of 10 the
    hook writes 62 while [floor(7 / 10 * 90)] is 63.  Second, the counter
    follows ['finished'] events, not urls, so it can pass the number of
    urls: with one url whose fetch reports two finished files and then a
    download in progress, a poll sees status [starting] at progress 180. *)
Lemma C3_counterexample :
  (∃ reg' j, progress_hook "3f2a9c1e" 10 (downloading "08 - h.mp4") 7
               (<["3f2a9c1e" := new_job 0]> ∅) = HookOk 7 reg'
             ∧ reg' !! "3f2a9c1e" = Some j
             ∧ progress j = 62 ∧ spec_pct 7 10 = 63)
  ∧ (let run := download_videos playlist_env
                  ["https://www.youtube.com/playlist?list=PLaaaaaaaa"]
                  "3f2a9c1e" "720" (<["3f2a9c1e" := new_job 0]> ∅) in
     ∃ r j, run_trace run !! 2%nat = Some r
            ∧ r ≠ run_final run
            ∧ r !! "3f2a9c1e" = Some j
            ∧ status j = "starting" ∧ progress j = 180).
Proof.
  split.
  - rewrite progress_hook_present by done. do 2 eexists.
    split; [done|]. split; [apply lookup_insert_eq|]. by vm_compute.
  - cbv zeta. rewrite download_videos_present. do 2 eexists.
    split; [by cbn|]. split; [|split; [apply lookup_insert_eq | by vm_compute]].
    intros H. apply (f_equal (λ m, progress <$> m !! "3f2a9c1e")) in H.
    cbn [run_present run_final] in H. rewrite !lookup_insert_eq in H.
    vm_compute in H. discriminate.
Qed.

(** C3, amended: on a present record and with [total <> 0], a
    ['downloading'] event sets the job's progress to
    [int((completed / total) * 90)] as binary64 evaluates it ([py_pct]),
    overwrites the current message and leaves the counter alone; a
    ['finished'] event adds exactly one to the counter and overwrites the
    current message; the value written is between 0 and 90 whenever
    [0 <= completed <= total]; and in a run that reports no more
    ['finished'] events than it has urls, a registry state shows a progress
    above 90 only if it is the final one, completed at 100. *)
Theorem C3_progress_events (env : Env) (urls : list string)
    (download_id quality : string) (now : Q) (reg : gmap string Job)
    (total completed : Z) (d : hook_event) (j : Job) :
  total ≠ 0 →
  (ev_status d = "downloading" →
   progress_hook download_id total d completed (<[download_id := j]> reg)
   = HookOk completed
       (<[download_id :=
            mkJob (status j) (py_pct completed total)
                  ("Downloading: " +:+ ev_name d)
                  (errors j) (timestamp j) (zip_path j)]> reg))
  ∧ (ev_status d = "finished" →
     progress_hook download_id total d completed (<[download_id := j]> reg)
     = HookOk (completed + 1)
         (<[download_id :=
              mkJob (status j) (progress j) ("Finished: " +:+ ev_name d)
                    (errors j) (timestamp j) (zip_path j)]> reg))
  ∧ (0 ≤ completed ≤ total → 0 ≤ py_pct completed total ≤ 90)
  ∧ (let opts := make_opts (download_dir_of (home env) download_id) quality in
     let run := download_videos env urls download_id quality
                  (<[download_id := new_job now]> reg) in
     count_finished (fetch_events env opts 0 urls) ≤ Z.of_nat (length urls) →
     ∀ r, r ∈ run_trace run →
          ∃ j', r !! download_id = Some j'
                ∧ (90 < progress j' →
                   r = run_final run ∧ status j' = "completed"
                   ∧ progress j' = 100)).
Proof.
  intros Ht. split; [|split; [|split]].
  - intros Hd. rewrite progress_hook_present by done.
    unfold hook_count, hook_job. by rewrite !decide_True by done.
  - intros Hd. rewrite progress_hook_present by done.
    unfold hook_count, hook_job.
    rewrite !(decide_False (P := ev_status d = "downloading")) by (by rewrite Hd).
    by rewrite !decide_True by done.
  - intros [H0 H1]. split.
    + apply py_pct_nonneg; lia.
    + apply py_pct_le_90; lia.
  - cbv zeta. intros Hn r. rewrite download_videos_present. unfold run_present.
    set (opts := make_opts _ _) in *.
    set (evs := fetch_events env opts 0 urls) in *.
    assert (Forall (λ j', progress j' ≤ 90)
              (scan_events (Z.of_nat (length urls)) evs 0 (new_job now))) as Hb.
    { destruct urls as [|u rest]; [constructor|].
      apply scan_events_le_90; try done; simpl length; lia. }
    assert (∀ r, r ∈ (λ j', <[download_id := j']> reg)
                       <$> scan_events (Z.of_nat (length urls)) evs 0 (new_job now) →
                 ∃ j', r !! download_id = Some j' ∧ progress j' ≤ 90) as Hmid.
    { intros r' Hr. apply list_elem_of_fmap in Hr as (j' & -> & Hj').
      exists j'. split; [apply lookup_insert_eq|].
      rewrite Forall_forall in Hb. by apply Hb. }
    destruct (mkdir env _) as [e|]; cbn [run_trace run_final].
    { intros Hr. by apply elem_of_nil in Hr. }
    destruct (ydl_init env _) as [e|]; cbn [run_trace run_final].
    { intros Hr. by apply elem_of_nil in Hr. }
    destruct (zip_fault env _) as [e|]; cbn [run_trace run_final].
    { intros Hr. destruct (Hmid r Hr) as (j' & Hj' & Hp).
      exists j'. split; [done|lia]. }
    intros Hr. apply elem_of_app in Hr as [Hr|Hr].
    + destruct (Hmid r Hr) as (j' & Hj' & Hp). exists j'. split; [done|lia].
    + apply list_elem_of_singleton in Hr as ->.
      eexists. split; [apply lookup_insert_eq|]. done.
Qed.

Lemma C3_progress_events_witness :
  progress_hook "3f2a9c1e" 2 (downloading "01 - a.mp4") 1
    (<["3f2a9c1e" := new_job 0]> ∅)
  = HookOk 1
      (<["3f2a9c1e" :=
           mkJob "starting" (py_pct 1 2) "Downloading: 01 - a.mp4" [] 0 None]> ∅)
  ∧ progress_hook "3f2a9c1e" 2 (finished "01 - a.mp4") 1
      (<["3f2a9c1e" := new_job 0]> ∅)
    = HookOk (1 + 1)
        (<["3f2a9c1e" :=
             mkJob "starting" 0 "Finished: 01 - a.mp4" [] 0 None]> ∅)
  ∧ 0 ≤ py_pct 1 2 ≤ 90.
Proof.
  destruct (C3_progress_events one_file_env sample_urls "3f2a9c1e" "720" 0 ∅
              2 1 (downloading "01 - a.mp4") (new_job 0))
    as (Hdown & _ & Hrange & _); [lia|].
  destruct (C3_progress_events one_file_env sample_urls "3f2a9c1e" "720" 0 ∅
              2 1 (finished "01 - a.mp4") (new_job 0))
    as (_ & Hfin & _); [lia|].
  split; [apply Hdown; reflexivity|].
  split; [apply Hfin; reflexivity|].
  apply Hrange. lia.
Defined.

(** C4: in every run of a created job, between two consecutive registry
    states the progress of the job does not go down as long as the later
    state is not terminal. *)
Theorem C4_progress_never_decreases (env : Env) (urls : list string)
    (download_id quality : string) (now : Q) (reg : gmap string Job) :
  let start := <[download_id := new_job now]> reg in
  chain (no_decrease download_id) start
        (run_trace (download_videos env urls download_id quality start)).
Proof.
  cbv zeta. rewrite download_videos_present. unfold run_present.
  set (total := Z.of_nat (length urls)).
  set (evs := fetch_events env _ 0 urls).
  assert (chain (no_decrease download_id) (<[download_id := new_job now]> reg)
            ((λ j', <[download_id := j']> reg)
               <$> scan_events total evs 0 (new_job now))) as Hmid.
  { apply (chain_fmap (no_decrease download_id)
             (λ j', <[download_id := j']> reg) (new_job now)).
    destruct urls as [|u rest]; [done|].
    eapply chain_impl; [|apply scan_events_progress].
    - intros a b Hab a' b'. rewrite !lookup_insert_eq. intros [= <-] [= <-] _. done.
    - done.
    - subst total. simpl length. lia.
    - simpl. apply py_pct_nonneg; [done|]. subst total. simpl length. lia. }
  destruct (mkdir env _) as [e|]; [done|].
  destruct (ydl_init env _) as [e|]; [done|].
  destruct (zip_fault env _) as [e|]; [done|].
  cbn [run_trace]. apply chain_snoc; [|done].
  intros r a b _. rewrite lookup_insert_eq. intros [= <-] Hterm.
  exfalso. apply Hterm. by left.
Qed.




(** C6: the archive's members are exactly the regular files listed
    directly in the job's directory, each under the bare name it is listed
    by and in listing order; an entry that is a subdirectory (whatever it
    contains) or any other non-file adds nothing; and the archive that a
    run writes is this member list at the path [zip_path_of], which is a
    function of the home directory and the job identifier and differs for
    different identifiers. *)
Theorem C6_archive_members (env : Env) (urls : list string)
    (download_id other_id quality : string) (reg : gmap string Job)
    (entries before after : list (string * node)) (f sub : string)
    (data : list Byte.byte) (children : list (string * node))
    (a : string * list (string * list Byte.byte)) :
  ((f, data) ∈ write_zip entries ↔ (f, File data) ∈ entries)
  ∧ (write_zip entries).*1 = (List.filter (λ e, isfile e.2) entries).*1
  ∧ write_zip (before ++ (sub, Dir children) :: after)
    = write_zip (before ++ after)
  ∧ write_zip (before ++ (sub, Special) :: after) = write_zip (before ++ after)
  ∧ (run_archive (download_videos env urls download_id quality reg) = Some a ↔
     a = (zip_path_of (home env) download_id,
          write_zip (listdir env (download_dir_of (home env) download_id)))
     ∧ mkdir env (download_dir_of (home env) download_id) = None
     ∧ ydl_init env (make_opts (download_dir_of (home env) download_id) quality)
       = None
     ∧ zip_fault env (zip_path_of (home env) download_id) = None)
  ∧ (zip_path_of (home env) download_id = zip_path_of (home env) other_id ↔
     download_id = other_id).
Proof.
  split; [apply write_zip_elem|]. split; [apply write_zip_names|].
  split; [by rewrite !write_zip_app|]. split; [by rewrite !write_zip_app|].
  split.
  - unfold download_videos.
    destruct (mkdir env _) as [e|]; [cbn; split; [done | by intros (_&?&_)]|].
    destruct (ydl_init env _) as [e|]; [cbn; split; [done | by intros (_&_&?&_)]|].
    destruct (fetch_all _ _ _ _ _ _ _ _ _) as [[[c errs] reg1] tr].
    destruct (zip_fault env _) as [e|]; [cbn; split; [done | by intros (_&_&_&?)]|].
    destruct (final_update _ _ _ _ _ _); cbn; split.
    + by intros [= <-].
    + by intros [-> _].
    + by intros [= <-].
    + by intros [-> _].
  - split; [apply zip_path_of_inj | by intros ->].
Qed.



(** C8: when the url list of a creation request is empty, or none of its
    urls contains "youtube.com" or "youtu.be" as a substring,
    [start_download] answers with the failure "No valid URLs", leaves the
    registry unchanged, issues no identifier and starts no thread. *)
Theorem C8_invalid_request_creates_no_job (uuid4 : string) (now : Q)
    (urls : list string) (quality : string) (reg : gmap string Job) :
  urls = [] ∨
  Forall (λ u, ¬ ((∃ pre post, u = pre +:+ "youtube.com" +:+ post)
                  ∨ (∃ pre post, u = pre +:+ "youtu.be" +:+ post))) urls →
  start_download uuid4 now urls quality reg
  = (JsonFailure "No valid URLs", reg, None).
Proof.
  intros H. unfold start_download.
  assert (List.filter is_valid_youtube_url urls = []) as ->; [|done].
  destruct H as [-> | H]; [done|].
  induction H as [|u rest Hu _ IH]; simpl; [done|].
  destruct (is_valid_youtube_url u) eqn:E; [|done].
  by apply is_valid_youtube_url_spec in E.
Qed.

Lemma C8_invalid_request_creates_no_job_witness :
  start_download uuid_a 0 ["https://vimeo.com/76979871"; "not a url"] "720"
    (<["3f2a9c1e" := new_job 0]> ∅)
  = (JsonFailure "No valid URLs", <["3f2a9c1e" := new_job 0]> ∅, None).
Proof.
  apply (C8_invalid_request_creates_no_job uuid_a 0
           ["https://vimeo.com/76979871"; "not a url"] "720"
           (<["3f2a9c1e" := new_job 0]> ∅)).
  right. repeat constructor;
    (intros H; apply is_valid_youtube_url_spec in H; vm_compute in H;
     discriminate).
Defined.

(** C9 does not hold of the code: the identifier is the first eight
    characters of a random UUID and is stored without looking whether the
    registry already has it.  Two successful creations whose UUIDs differ
    but share their first eight characters return the same identifier, and
    the second one replaces the record of the first, here a completed job
    with its archive location. *)
Lemma C9_identifier_reused :
  let urls := ["https://youtu.be/bbbbbbbbbbb"] in
  let done_job := finish_job (zip_path_of "/home/user" "3f2a9c1e") 1 1 []
                             (new_job 0) in
  uuid_a ≠ uuid_b
  ∧ serve_all [(uuid_a, 0%Q, urls, "720"); (uuid_b, 1%Q, urls, "best")] ∅
    = ([JsonStarted "3f2a9c1e"; JsonStarted "3f2a9c1e"],
       <["3f2a9c1e" := new_job 1]> ∅)
  ∧ start_download uuid_b 1 urls "best" (<["3f2a9c1e" := done_job]> ∅)
    = (JsonStarted "3f2a9c1e", <["3f2a9c1e" := new_job 1]> ∅,
       Some (mkThread urls "3f2a9c1e" "best")).
Proof.
  cbv zeta. split; [discriminate|]. split.
  - cbn. by rewrite insert_insert_eq.
  - cbn. by rewrite insert_insert_eq.
Qed.

(** C10: in every registry state that any interleaving of requests and
    runners can produce, a status snapshot whose status is not [completed]
    shows an empty [errors] sequence.  In the run of a created job the
    messages of the failed fetches are the runner's local list; every state
    before the last shows no error, and the list is stored by the one
    final locked block, which is also the one that sets status
    [completed]. *)
Theorem C10_errors_hidden_until_completed (env : Env) (urls : list string)
    (download_id quality : string) (now : Q) (reg0 reg : gmap string Job)
    (some_id : string) (j : Job) :
  reachable (home env) reg →
  progress_endpoint reg some_id = JsonJob j →
  status j ≠ "completed" →
  errors j = []
  ∧ (let opts := make_opts (download_dir_of (home env) download_id) quality in
     let run := download_videos env urls download_id quality
                  (<[download_id := new_job now]> reg0) in
     (run_outcome run = Returned → run_errors run = fetch_errors env opts 0 urls)
     ∧ ∃ tr,
         Forall (λ r, ∃ j', progress_endpoint r download_id = JsonJob j'
                            ∧ errors j' = []) tr
         ∧ ((∃ msg, run_outcome run = Raised msg ∧ run_trace run = tr)
            ∨ (run_outcome run = Returned
               ∧ run_trace run = tr ++ [run_final run]
               ∧ ∃ jf, run_final run !! download_id = Some jf
                       ∧ status jf = "completed"
                       ∧ errors jf = run_errors run))).
Proof.
  intros Hreach Hsnap Hs. unfold progress_endpoint in Hsnap.
  destruct (reg !! some_id) as [j0|] eqn:Hj; [|done].
  injection Hsnap as ->. split.
  - by destruct (reachable_inv _ _ Hreach _ _ Hj) as [[? _] | (_ & _ & ?)].
  - cbv zeta. split.
    + rewrite download_videos_present. unfold run_present.
      destruct (mkdir env _) as [e|]; [done|].
      destruct (ydl_init env _) as [e|]; [done|].
      by destruct (zip_fault env _) as [e|].
    + destruct (run_shape env urls download_id quality now reg0)
        as (tr & Htr & Hend).
      exists tr. split.
      * eapply Forall_impl; [exact Htr|]. intros r (j' & Hr & ? & ? & ?).
        exists j'. unfold progress_endpoint. by rewrite Hr.
      * destruct Hend as [Hr | (Ho & Ht & jf & ? & ? & ? & ?)]; [by left|].
        right. split; [done|]. split; [done|]. by exists jf.
Qed.

Lemma C10_errors_hidden_until_completed_witness :
  let j := set_current "Downloading: 01 - a.mp4"
             (set_progress (py_pct 1 2) (new_job 0)) in
  errors j = [].
Proof.
  cbv zeta.
  refine (proj1 (C10_errors_hidden_until_completed one_file_env sample_urls
            "3f2a9c1e" "720" 0 ∅
            (<["3f2a9c1e" := set_current "Downloading: 01 - a.mp4"
                               (set_progress (py_pct 1 2) (new_job 0))]>
               (<["3f2a9c1e" := new_job 0]> ∅))
            "3f2a9c1e" _ _ _ _)).
  - eapply rtc_l; [apply (step_create _ "3f2a9c1e" 0)|].
    apply rtc_once.
    apply (step_hook _ "3f2a9c1e" 2 1 1 (downloading "01 - a.mp4")).
    reflexivity.
  - reflexivity.
  - discriminate.
Defined.

(** * Further properties of the code *)

(** ** Every write of a run is a hook call or the final update *)

Lemma deliver_run_chain (download_id : string) (total : Z)
    (evs : list hook_event) (c : Z) (reg : gmap string Job) :
  chain (run_step download_id) reg (deliver download_id total evs c reg).1.2.
Proof.
  revert c reg. induction evs as [|d evs IH]; intros c reg; [done|].
  cbn [deliver].
  destruct (progress_hook download_id total d c reg) as [c' reg'|c' msg] eqn:E;
    [|done].
  specialize (IH c' reg').
  destruct (deliver download_id total evs c' reg') as [[[c2 reg2] tr] exc].
  cbn [fst snd] in *. split; [|done]. left. by exists total, d, c, c'.
Qed.

Lemma fetch_all_run_chain (env : Env) (opts : ydl_opts) (download_id : string)
    (total : Z) (i : nat) (urls : list string) (c : Z) (errs : list string)
    (reg : gmap string Job) :
  chain (run_step download_id) reg
        (fetch_all env opts download_id total i urls c errs reg).2.
Proof.
  revert i c errs reg.
  induction urls as [|url rest IH]; intros i c errs reg; [done|].
  cbn [fetch_all].
  destruct (ydl_download env opts i url) as [evs exc].
  pose proof (deliver_run_chain download_id total evs c reg) as D1.
  pose proof (deliver_chain "" download_id total evs c reg) as [_ D2].
  destruct (deliver download_id total evs c reg) as [[[c1 reg1] tr1] hexc].
  cbn [fst snd] in D1, D2.
  match goal with
  | |- context [fetch_all env opts download_id total (S i) rest c1 ?e reg1] =>
      specialize (IH (S i) c1 e reg1);
      destruct (fetch_all env opts download_id total (S i) rest c1 e reg1)
        as [[[c2 errs2] reg2] tr2]
  end.
  cbn [fst snd] in *. apply chain_app; [done|]. by rewrite <- D2.
Qed.

Lemma download_videos_run_chain (env : Env) (urls : list string)
    (download_id quality : string) (reg : gmap string Job) :
  chain (run_step download_id) reg
        (run_trace (download_videos env urls download_id quality reg)).
Proof.
  unfold download_videos.
  destruct (mkdir env _) as [e|]; [done|].
  destruct (ydl_init env _) as [e|]; [done|].
  match goal with
  | |- context [fetch_all env ?o download_id ?t 0 urls 0 [] reg] =>
      pose proof (fetch_all_run_chain env o download_id t 0 urls 0 [] reg) as F1;
      pose proof (fetch_all_chain "" env o download_id t 0 urls 0 [] reg)
        as [_ F2];
      destruct (fetch_all env o download_id t 0 urls 0 [] reg)
        as [[[c errs] reg1] tr]
  end.
  cbn [fst snd] in F1, F2.
  destruct (zip_fault env _) as [e|]; [done|].
  destruct (final_update _ _ _ _ _ _) as [reg2|] eqn:E; [|done].
  cbn [run_trace]. apply chain_app; [done|]. split; [|done].
  rewrite <- F2. right. eauto.
Qed.

(** A property of the start that every step keeps holds along a chain. *)
Lemma chain_Forall {A : Type} (R : A → A → Prop) (P : A → Prop) (x : A)
    (l : list A) :
  (∀ a b, P a → R a b → P b) → P x → chain R x l → Forall P l.
Proof.
  intros HR. revert x. induction l as [|y l IH]; intros x Hx; simpl;
    [constructor|].
  intros [H1 H2]. constructor; eauto.
Qed.

Lemma last_of_Forall {A : Type} (P : A → Prop) (x : A) (l : list A) :
  P x → Forall P l → P (last_of x l).
Proof.
  revert x. induction l as [|y l IH]; intros x Hx Hl; simpl; [done|].
  inversion Hl; subst. by apply IH.
Qed.

(** What one hook call or final update leaves alone. *)
Lemma run_step_frame (download_id : string) (r r' : gmap string Job) :
  run_step download_id r r' →
  dom r' = dom r
  ∧ (∀ other, other ≠ download_id → r' !! other = r !! other)
  ∧ (r !! download_id = None → r' = r).
Proof.
  intros [(total & d & c & c' & H) | (zp & c & total & errs & H)].
  - unfold progress_hook in H.
    destruct (r !! download_id) as [j|] eqn:E; repeat case_decide; try done;
      injection H as <- <-; try done;
      (split; [|split; [|done]]);
      try (apply dom_insert_lookup_L; by eexists);
      intros other Ho; by rewrite lookup_insert_ne.
  - unfold final_update in H.
    destruct (r !! download_id) as [j|] eqn:E; [|done].
    injection H as <-. split; [|split; [|done]].
    + apply dom_insert_lookup_L. by eexists.
    + intros other Ho. by rewrite lookup_insert_ne.
Qed.

(** X1: a run of [download_videos] for one identifier never touches the
    record of any other identifier, and never adds or removes a key: in
    every registry state it passes through, and at its end, every other
    job's record and the set of identifiers are those of the start. *)
Theorem X1_run_leaves_other_jobs_alone (env : Env) (urls : list string)
    (download_id quality : string) (reg : gmap string Job) (other : string) :
  other ≠ download_id →
  let run := download_videos env urls download_id quality reg in
  Forall (λ r, r !! other = reg !! other ∧ dom r = dom reg) (run_trace run)
  ∧ run_final run !! other = reg !! other
  ∧ dom (run_final run) = dom reg.
Proof.
  intros Ho. cbv zeta.
  pose proof (download_videos_run_chain env urls download_id quality reg) as Hc.
  pose proof (download_videos_chain env urls download_id quality reg) as [_ Hl].
  assert (Forall (λ r, r !! other = reg !! other ∧ dom r = dom reg)
            (run_trace (download_videos env urls download_id quality reg)))
    as Hall.
  { eapply (chain_Forall (run_step download_id)); [|done|exact Hc].
    intros a b [Ha1 Ha2] Hab.
    destruct (run_step_frame _ _ _ Hab) as (Hd & Hoth & _).
    split; [by rewrite Hoth | congruence]. }
  split; [done|]. rewrite Hl.
  by apply (last_of_Forall (λ r, r !! other = reg !! other ∧ dom r = dom reg)).
Qed.

Lemma X1_run_leaves_other_jobs_alone_witness :
  let reg := <["0badc0de" := set_progress 45 (new_job 5)]>
               (<["3f2a9c1e" := new_job 0]> ∅) in
  let run := download_videos one_file_env sample_urls "3f2a9c1e" "720" reg in
  Forall (λ r, r !! "0badc0de" = reg !! "0badc0de" ∧ dom r = dom reg)
         (run_trace run)
  ∧ run_final run !! "0badc0de" = reg !! "0badc0de"
  ∧ dom (run_final run) = dom reg.
Proof.
  apply (X1_run_leaves_other_jobs_alone one_file_env sample_urls "3f2a9c1e"
           "720" (<["0badc0de" := set_progress 45 (new_job 5)]>
                    (<["3f2a9c1e" := new_job 0]> ∅)) "0badc0de").
  discriminate.
Defined.

(** X2: when the registry has no record for the identifier, a run of
    [download_videos] changes nothing in the registry and never returns:
    it ends with the exception of the first of directory creation, engine
    start and archive step that raises, and otherwise with the [KeyError]
    of the final update, after the archive has been written. *)
Theorem X2_run_without_record (env : Env) (urls : list string)
    (download_id quality : string) (reg : gmap string Job) :
  reg !! download_id = None →
  let dir := download_dir_of (home env) download_id in
  let zp := zip_path_of (home env) download_id in
  let run := download_videos env urls download_id quality reg in
  Forall (λ r, r = reg) (run_trace run)
  ∧ run_final run = reg
  ∧ run_outcome run
    = match mkdir env dir, ydl_init env (make_opts dir quality),
            zip_fault env zp with
      | Some e, _, _ => Raised e
      | None, Some e, _ => Raised e
      | None, None, Some e => Raised e
      | None, None, None => Raised (key_error download_id)
      end
  ∧ (run_outcome run = Raised (key_error download_id) →
     mkdir env dir = None → ydl_init env (make_opts dir quality) = None →
     zip_fault env zp = None →
     run_archive run = Some (zp, write_zip (listdir env dir))).
Proof.
  intros Hnone. cbv zeta.
  pose proof (download_videos_run_chain env urls download_id quality reg) as Hc.
  pose proof (download_videos_chain env urls download_id quality reg) as [_ Hl].
  assert (Forall (λ r, r = reg)
            (run_trace (download_videos env urls download_id quality reg)))
    as Hall.
  { eapply (chain_Forall (run_step download_id)); [|done|exact Hc].
    intros a b -> Hab. destruct (run_step_frame _ _ _ Hab) as (_ & _ & H).
    by apply H. }
  assert (run_final (download_videos env urls download_id quality reg) = reg)
    as Hfin.
  { rewrite Hl. by apply (last_of_Forall (λ r, r = reg)). }
  split; [done|]. split; [done|].
  revert Hfin. unfold download_videos.
  destruct (mkdir env _) as [e|]; [done|].
  destruct (ydl_init env _) as [e|]; [done|].
  destruct (fetch_all _ _ _ _ _ _ _ _ _) as [[[c errs] reg1] tr].
  destruct (zip_fault env _) as [e|]; [done|].
  destruct (final_update _ _ _ _ _ _) as [reg2|] eqn:E; cbn.
  - intros ->. unfold final_update in E.
    destruct (reg1 !! download_id) as [j|] eqn:Ej; [|done].
    injection E as E. apply (f_equal (λ m, m !! download_id)) in E.
    rewrite lookup_insert_eq, Hnone in E. done.
  - done.
Qed.

Lemma X2_run_without_record_witness :
  let run := download_videos one_file_env sample_urls "3f2a9c1e" "720" ∅ in
  run_final run = ∅ ∧ run_outcome run = Raised "'3f2a9c1e'".
Proof.
  destruct (X2_run_without_record one_file_env sample_urls "3f2a9c1e" "720" ∅)
    as (_ & Hfin & Hout & _); [reflexivity|].
  split; [exact Hfin | exact Hout].
Defined.

Lemma progress_hook_ok_inv (download_id : string) (total completed c' : Z)
    (d : hook_event) (reg reg' : gmap string Job) (j : Job) :
  progress_hook download_id total d completed reg = HookOk c' reg' →
  reg !! download_id = Some j →
  ∃ j', reg' !! download_id = Some j' ∧ same_meta j j'
        ∧ (ev_status d ≠ "downloading" → progress j' = progress j).
Proof.
  intros H Hj. unfold progress_hook in H. rewrite Hj in H.
  destruct (decide (ev_status d = "downloading")) as [Hd|Hd].
  - destruct (decide (total = 0)); [done|]. injection H as <- <-.
    eexists. split; [apply lookup_insert_eq|]. done.
  - destruct (decide (ev_status d = "finished")); injection H as <- <-.
    + eexists. split; [apply lookup_insert_eq|]. done.
    + exists j. split; [done|]. split; [apply same_meta_refl | done].
Qed.

Lemma progress_hook_ok_count (download_id : string) (total completed c' : Z)
    (d : hook_event) (reg reg' : gmap string Job) :
  progress_hook download_id total d completed reg = HookOk c' reg' →
  c' = if decide (ev_status d = "finished") then completed + 1 else completed.
Proof.
  unfold progress_hook.
  destruct (decide (ev_status d = "downloading")) as [Hd|Hd].
  - rewrite (decide_False (P := ev_status d = "finished")) by (by rewrite Hd).
    destruct (decide (total = 0)); [done|].
    destruct (reg !! download_id); [|done]. by intros [= <- _].
  - destruct (decide (ev_status d = "finished")).
    + destruct (reg !! download_id); [|done]. by intros [= <- _].
    + by intros [= <- _].
Qed.

(** X4: a hook call that returns writes nothing but the progress and the
    current message of its own job.  The set of identifiers and every
    other record are unchanged; the record of its job keeps status, error
    list, archive location and timestamp; the progress changes only on a
    ['downloading'] event; and the counter moves only on a ['finished']
    event, by one. *)
Theorem X4_progress_hook_frame (download_id : string) (total completed c' : Z)
    (d : hook_event) (reg reg' : gmap string Job) :
  progress_hook download_id total d completed reg = HookOk c' reg' →
  dom reg' = dom reg
  ∧ (∀ other, other ≠ download_id → reg' !! other = reg !! other)
  ∧ (∀ j, reg !! download_id = Some j →
          ∃ j', reg' !! download_id = Some j' ∧ same_meta j j'
                ∧ (ev_status d ≠ "downloading" → progress j' = progress j))
  ∧ (c' = if decide (ev_status d = "finished") then completed + 1
          else completed).
Proof.
  intros H.
  destruct (run_step_frame download_id reg reg') as (Hdom & Hoth & _).
  { left. by exists total, d, completed, c'. }
  split; [done|]. split; [done|]. split.
  - intros j Hj. by eapply progress_hook_ok_inv.
  - by eapply progress_hook_ok_count.
Qed.

Lemma X4_progress_hook_frame_witness :
  let reg : gmap string Job :=
    <["0badc0de" := new_job 5]> (<["3f2a9c1e" := new_job 0]> ∅) in
  let reg' := <["3f2a9c1e" := set_current "Finished: 01 - a.mp4" (new_job 0)]>
                reg in
  dom reg' = dom reg
  ∧ (∀ other, other ≠ "3f2a9c1e" → reg' !! other = reg !! other).
Proof.
  cbv zeta.
  destruct (X4_progress_hook_frame "3f2a9c1e" 2 0 1 (finished "01 - a.mp4")
              (<["0badc0de" := new_job 5]> (<["3f2a9c1e" := new_job 0]> ∅))
              (<["3f2a9c1e" := set_current "Finished: 01 - a.mp4" (new_job 0)]>
                 (<["0badc0de" := new_job 5]> (<["3f2a9c1e" := new_job 0]> ∅))))
    as (H1 & H2 & _); [reflexivity|].
  split; [exact H1 | exact H2].
Defined.

Lemma step_keeps_records (hm : string) (reg reg' : gmap string Job)
    (download_id : string) :
  step hm reg reg' → is_Some (reg !! download_id) →
  is_Some (reg' !! download_id).
Proof.
  intros Hstep Hin. destruct Hstep as [id now reg|id total c c' d reg reg' H|
                                       id c total errs reg reg' H].
  - rewrite lookup_insert. by case_decide.
  - apply elem_of_dom. apply elem_of_dom in Hin.
    destruct (run_step_frame id reg reg') as (-> & _); [|done].
    left. by exists total, d, c, c'.
  - apply elem_of_dom. apply elem_of_dom in Hin.
    destruct (run_step_frame id reg reg') as (-> & _); [|done].
    right. by exists (zip_path_of hm id), c, total, errs.
Qed.

(** X5: the registry never loses a record.  Whatever requests and runners
    do afterwards, in any interleaving, an identifier that has a record
    keeps having one; the program has no operation that removes a key. *)
Theorem X5_records_are_never_removed (hm : string)
    (reg reg' : gmap string Job) :
  rtc (step hm) reg reg' →
  dom reg ⊆ dom reg'
  ∧ ∀ download_id, progress_endpoint reg download_id ≠ JsonError "Not found" 404 →
                   progress_endpoint reg' download_id ≠ JsonError "Not found" 404.
Proof.
  intros Hrtc.
  assert (∀ id, is_Some (reg !! id) → is_Some (reg' !! id)) as Hkeep.
  { induction Hrtc as [|r1 r2 r3 H12 _ IH]; [done|].
    intros id Hid. apply IH. by eapply step_keeps_records. }
  split.
  - intros id. rewrite !elem_of_dom. apply Hkeep.
  - intros id. unfold progress_endpoint.
    destruct (reg !! id) as [j|] eqn:E; [|done]. intros _.
    destruct (Hkeep id) as [j' ->]; [by eexists | done].
Qed.

Lemma X5_records_are_never_removed_witness :
  let reg : gmap string Job := <["3f2a9c1e" := new_job 0]> ∅ in
  let reg' := <["0badc0de" := new_job 5]> reg in
  dom reg ⊆ dom reg'.
Proof.
  cbv zeta.
  refine (proj1 (X5_records_are_never_removed "/home/user"
            (<["3f2a9c1e" := new_job 0]> ∅)
            (<["0badc0de" := new_job 5]> (<["3f2a9c1e" := new_job 0]> ∅)) _)).
  apply rtc_once. apply (step_create _ "0badc0de" 5).
Defined.

Lemma step_status (hm : string) (reg reg' : gmap string Job) :
  step hm reg reg' →
  (∀ id j, reg !! id = Some j →
           status j = "starting" ∨ status j = "completed") →
  ∀ id j, reg' !! id = Some j → status j = "starting" ∨ status j = "completed".
Proof.
  intros Hstep Hreg. destruct Hstep as [id now reg|id total c c' d reg reg' H|
                                        id c total errs reg reg' H];
    intros id' j'.
  - rewrite lookup_insert. case_decide; [intros [= <-]; by left | apply Hreg].
  - destruct (reg !! id) as [j|] eqn:E.
    + destruct (progress_hook_ok_inv id total c c' d reg reg' j H E)
        as (j2 & Hj2 & (Hs & _) & _).
      destruct (run_step_frame id reg reg') as (_ & Hoth & _).
      { left. by exists total, d, c, c'. }
      destruct (decide (id' = id)) as [->|Hne].
      * rewrite Hj2. intros [= <-]. rewrite Hs. by eapply Hreg.
      * rewrite Hoth by done. apply Hreg.
    + destruct (run_step_frame id reg reg') as (_ & _ & Hsame).
      { left. by exists total, d, c, c'. }
      rewrite (Hsame E). apply Hreg.
  - unfold final_update in H. destruct (reg !! id) as [j|] eqn:E; [|done].
    injection H as <-. rewrite lookup_insert.
    case_decide; [intros [= <-]; by right | apply Hreg].
Qed.

Lemma reachable_status (hm : string) (reg : gmap string Job)
    (download_id : string) (j : Job) :
  reachable hm reg → reg !! download_id = Some j →
  status j = "starting" ∨ status j = "completed".
Proof.
  intros Hreach. revert download_id j. unfold reachable in Hreach.
  apply (rtc_ind_r (R := step hm)
           (λ r, ∀ id j, r !! id = Some j →
                         status j = "starting" ∨ status j = "completed") ∅);
    [| |done].
  - intros id' j'. by rewrite lookup_empty.
  - intros r r' _ Hs IH. by eapply step_status.
Qed.

(** X6: in every registry state that requests and runners can produce,
    in any interleaving, a record's status is ['starting'] or
    ['completed'], nothing else is ever written; so a poll shows one of
    the two.  [download_zip] reads the status twice after releasing the
    lock (line 206); each read returns the status the record has in some
    such state ([r_cmp], [r_fmt]), so a refusal with code 400 carries
    "Status: starting" or, when the final update falls between the two
    reads, "Status: completed", and nothing else. *)
Theorem X6_status_is_starting_or_completed (hm : string)
    (reg r_cmp r_fmt : gmap string Job) (download_id : string)
    (j j_cmp j_fmt at_zip : Job) (file_exists : string → bool) :
  reachable hm reg → reg !! download_id = Some j →
  reachable hm r_cmp → r_cmp !! download_id = Some j_cmp →
  reachable hm r_fmt → r_fmt !! download_id = Some j_fmt →
  (status j = "starting" ∨ status j = "completed")
  ∧ progress_endpoint reg download_id = JsonJob j
  ∧ (status j_cmp = "starting" →
     download_zip_live file_exists reg download_id j_cmp j_fmt at_zip
     = Text ("Status: " +:+ status j_fmt) 400)
  ∧ ∀ body,
      download_zip_live file_exists reg download_id j_cmp j_fmt at_zip
      = Text body 400 →
      body = "Status: starting" ∨ body = "Status: completed".
Proof.
  intros Hreg Hj Hcmp Hjc Hfmt Hjf.
  pose proof (reachable_status _ _ _ _ Hreg Hj) as Hs.
  pose proof (reachable_status _ _ _ _ Hcmp Hjc) as Hsc.
  pose proof (reachable_status _ _ _ _ Hfmt Hjf) as Hsf.
  split; [done|]. split; [unfold progress_endpoint; by rewrite Hj|].
  unfold download_zip_live, download_zip_reads. rewrite Hj. split.
  - intros ->. by rewrite decide_True.
  - intros body. destruct Hsc as [-> | ->].
    + rewrite decide_True by done. intros [= <-].
      destruct Hsf as [-> | ->]; [by left | by right].
    + rewrite decide_False by (intros H; by apply H).
      destruct (zip_path at_zip) as [zp|]; [|done].
      case_decide; [done|]. by destruct (file_exists zp).
Qed.

Lemma X6_status_is_starting_or_completed_witness :
  let before : gmap string Job := <["3f2a9c1e" := new_job 0]> ∅ in
  let done_job :=
    finish_job (zip_path_of "/home/user" "3f2a9c1e") 1 2 [] (new_job 0) in
  download_zip_live (λ _, true) before "3f2a9c1e" (new_job 0) done_job done_job
  = Text "Status: completed" 400.
Proof.
  cbv zeta.
  refine (proj1 (proj2 (proj2
    (X6_status_is_starting_or_completed "/home/user"
       (<["3f2a9c1e" := new_job 0]> ∅)
       (<["3f2a9c1e" := new_job 0]> ∅)
       (<["3f2a9c1e" := finish_job (zip_path_of "/home/user" "3f2a9c1e")
                          1 2 [] (new_job 0)]>
          (<["3f2a9c1e" := new_job 0]> ∅))
       "3f2a9c1e" (new_job 0) (new_job 0) _ _ (λ _, true)
       _ _ _ _ _ _))) _).
  - apply rtc_once. apply (step_create _ "3f2a9c1e" 0).
  - reflexivity.
  - apply rtc_once. apply (step_create _ "3f2a9c1e" 0).
  - reflexivity.
  - eapply rtc_l; [apply (step_create _ "3f2a9c1e" 0)|].
    apply rtc_once. apply (step_final _ "3f2a9c1e" 1 2 []). reflexivity.
  - reflexivity.
  - reflexivity.
Defined.

(** X7: whether a run on a present record returns depends only on the
    directory creation, the engine start and the archive step: it returns
    exactly when none of the three raises, whatever the fetches do, and
    otherwise ends with the message of the first of them that raises. *)
Theorem X7_fetch_failures_never_end_the_run (env : Env) (urls : list string)
    (download_id quality : string) (reg : gmap string Job) (j : Job) :
  let dir := download_dir_of (home env) download_id in
  let zp := zip_path_of (home env) download_id in
  let run := download_videos env urls download_id quality
               (<[download_id := j]> reg) in
  run_outcome run
  = match mkdir env dir, ydl_init env (make_opts dir quality),
          zip_fault env zp with
    | Some e, _, _ => Raised e
    | None, Some e, _ => Raised e
    | None, None, Some e => Raised e
    | None, None, None => Returned
    end.
Proof.
  cbv zeta. rewrite download_videos_present. unfold run_present.
  destruct (mkdir env _) as [e|]; [done|].
  destruct (ydl_init env _) as [e|]; [done|].
  by destruct (zip_fault env _) as [e|].
Qed.

Lemma fetch_errors_length (env : Env) (opts : ydl_opts) (i : nat)
    (urls : list string) :
  (length (fetch_errors env opts i urls) ≤ length urls)%nat.
Proof.
  revert i. induction urls as [|u rest IH]; intros i; simpl; [done|].
  specialize (IH (S i)). destruct (ydl_download env opts i u).2; simpl; lia.
Qed.

(** X8: the record a returning run leaves.  Status ['completed'],
    progress 100, the archive location, the creation timestamp, the
    message "Completed! X/Y downloaded" where X is the number of
    ['finished'] events over all fetches and Y the number of urls, and as
    error list exactly the messages of the fetches that raised, in url
    order (at most one per url), replacing whatever the record held. *)
Theorem X8_record_after_a_returning_run (env : Env) (urls : list string)
    (download_id quality : string) (reg : gmap string Job) (j : Job) :
  let opts := make_opts (download_dir_of (home env) download_id) quality in
  let run := download_videos env urls download_id quality
               (<[download_id := j]> reg) in
  let done_events := count_finished (fetch_events env opts 0 urls) in
  let raised := fetch_errors env opts 0 urls in
  run_outcome run = Returned →
  run_final run !! download_id
  = Some (mkJob "completed" 100
            ("Completed! " +:+ py_str done_events +:+ "/"
               +:+ py_str (Z.of_nat (length urls)) +:+ " downloaded")
            raised (timestamp j)
            (Some (zip_path_of (home env) download_id)))
  ∧ (length raised ≤ length urls)%nat
  ∧ 0 ≤ done_events
  ∧ run_completed run = done_events
  ∧ run_errors run = raised.
Proof.
  cbv zeta. rewrite download_videos_present. unfold run_present.
  destruct (mkdir env _) as [e|]; [done|].
  destruct (ydl_init env _) as [e|]; [done|].
  destruct (zip_fault env _) as [e|]; [done|].
  intros _. cbn [run_final run_completed run_errors].
  rewrite lookup_insert_eq. unfold finish_job.
  assert (timestamp (end_job (Z.of_nat (length urls))
            (fetch_events env
               (make_opts (download_dir_of (home env) download_id) quality)
               0 urls) 0 j) = timestamp j) as ->.
  { by destruct (scan_events_meta (Z.of_nat (length urls))
                   (fetch_events env
                      (make_opts (download_dir_of (home env) download_id)
                                 quality) 0 urls) 0 j) as [_ (_&_&_&?)]. }
  split; [done|]. split; [apply fetch_errors_length|].
  split; [apply count_finished_nonneg | done].
Qed.

Lemma X8_record_after_a_returning_run_witness :
  let run := download_videos playlist_env
               ["https://www.youtube.com/playlist?list=PLaaaaaaaa"]
               "3f2a9c1e" "720" (<["3f2a9c1e" := new_job 7]> ∅) in
  run_final run !! "3f2a9c1e"
  = Some (mkJob "completed" 100 "Completed! 3/1 downloaded" [] 7
            (Some "/home/user/Downloads/youtube_3f2a9c1e.zip")).
Proof.
  cbv zeta.
  refine (proj1 (X8_record_after_a_returning_run playlist_env
            ["https://www.youtube.com/playlist?list=PLaaaaaaaa"]
            "3f2a9c1e" "720" ∅ (new_job 7) _)).
  reflexivity.
Defined.

(** ** The percentage of line 54 *)

Section percentage.
Import Float64.
Local Open Scope Q_scope.

Lemma round_proper (x y : Q) : 0 <= x -> x == y -> round x == round y.
Proof.
  intros Hx Hxy. apply Qle_antisym; apply round_mono; lra.
Qed.

Lemma trunc_proper (x y : Q) : 0 <= x -> x == y -> trunc x = trunc y.
Proof.
  intros Hx Hxy. apply Z.le_antisymm; apply trunc_nonneg_mono; lra.
Qed.

Lemma py_pct_all_done (t : Z) : (0 < t)%Z -> py_pct t t = 90%Z.
Proof.
  intros Ht. unfold py_pct, mul, div_int.
  assert (0 < inject_Z t) as HT by (rewrite <- (Zlt_Qlt 0); assumption).
  assert (inject_Z t / inject_Z t == 1) as H1 by (field; lra).
  assert (round (inject_Z t / inject_Z t) == 1) as H2.
  { eapply Qeq_trans; [apply round_proper; [lra | exact H1] | apply round_1]. }
  assert (round (round (inject_Z t / inject_Z t) * 90) == 90) as H3.
  { eapply Qeq_trans; [apply round_proper | apply round_90]; lra. }
  assert (0 <= round (round (inject_Z t / inject_Z t) * 90)) as H4 by lra.
  exact (trunc_proper _ 90 H4 H3).
Qed.

Lemma py_pct_none_done (t : Z) : py_pct 0 t = 0%Z.
Proof.
  unfold py_pct, mul, div_int.
  assert (round (inject_Z 0 / inject_Z t) = 0) as ->.
  { unfold round.
    assert (inject_Z 0 / inject_Z t == 0) as H by (unfold Qdiv; ring).
    apply Qeq_alt in H. by rewrite H. }
  reflexivity.
Qed.

End percentage.

(** X9: the percentage [int((completed / total) * 90)] of line 54, in
    binary64, for [total > 0]: it never goes down when the counter goes
    up, it is never negative, it is 0 when nothing has finished and it is
    exactly 90 when the counter equals the number of urls, for every
    number of urls; rounding never makes it 89. *)
Theorem X9_percentage_formula (c c' t : Z) :
  0 < t → 0 ≤ c ≤ c' →
  py_pct c t ≤ py_pct c' t
  ∧ 0 ≤ py_pct c t
  ∧ py_pct 0 t = 0
  ∧ py_pct t t = 90.
Proof.
  intros Ht [Hc Hcc]. split; [apply py_pct_mono; lia|].
  split; [apply py_pct_nonneg; lia|].
  split; [apply py_pct_none_done | by apply py_pct_all_done].
Qed.

Lemma X9_percentage_formula_witness :
  py_pct 1 3 ≤ py_pct 2 3 ∧ 0 ≤ py_pct 1 3 ∧ py_pct 0 3 = 0 ∧ py_pct 3 3 = 90.
Proof. apply (X9_percentage_formula 1 2 3); lia. Defined.

(** ** Validation and creation *)

Lemma string_app_assoc (s1 s2 s3 : string) :
  (s1 +:+ s2) +:+ s3 = s1 +:+ s2 +:+ s3.
Proof.
  induction s1 as [|a s1 IH]; [done|].
  change (String a ((s1 +:+ s2) +:+ s3) = String a (s1 +:+ s2 +:+ s3)).
  by rewrite IH.
Qed.

(** X10: [is_valid_youtube_url] accepts exactly the strings that contain
    "youtube.com" or "youtu.be" somewhere; it does not look at where, so
    any text with an accepted string inside it is accepted too, whatever
    host it names. *)
Theorem X10_validation_is_substring_search (url pre post : string) :
  (is_valid_youtube_url url = true ↔
   (∃ a b, url = a +:+ "youtube.com" +:+ b)
   ∨ (∃ a b, url = a +:+ "youtu.be" +:+ b))
  ∧ (is_valid_youtube_url url = true →
     is_valid_youtube_url (pre +:+ url +:+ post) = true)
  ∧ is_valid_youtube_url ("https://example.org/?next=" +:+ pre +:+ "youtu.be")
    = true.
Proof.
  split; [apply is_valid_youtube_url_spec|]. split.
  - rewrite !is_valid_youtube_url_spec.
    intros [(a & b & ->) | (a & b & ->)]; [left | right];
      exists (pre +:+ a), (b +:+ post);
      by rewrite !string_app_assoc.
  - apply is_valid_youtube_url_spec. right.
    exists ("https://example.org/?next=" +:+ pre), "".
    by rewrite !string_app_assoc.
Qed.





(** X12: after a run on a present record has returned, [download_zip] for
    that identifier sends the file at the very path where the run wrote
    the archive, under the name "youtube_<id>.zip", provided the file
    still exists; if it does not, the answer is "Zip not found" with code
    404. *)
Theorem X12_archive_served_after_run (env : Env) (urls : list string)
    (download_id quality : string) (reg : gmap string Job) (j : Job)
    (file_exists : string → bool) :
  let zp := zip_path_of (home env) download_id in
  let run := download_videos env urls download_id quality
               (<[download_id := j]> reg) in
  run_outcome run = Returned →
  download_zip file_exists (run_final run) download_id
  = (if file_exists zp
     then SendFile zp ("youtube_" +:+ download_id +:+ ".zip") "application/zip"
     else Text "Zip not found" 404)
  ∧ fst <$> run_archive run = Some zp.
Proof.
  cbv zeta. rewrite download_videos_present. unfold run_present.
  destruct (mkdir env _) as [e|]; [done|].
  destruct (ydl_init env _) as [e|]; [done|].
  destruct (zip_fault env _) as [e|]; [done|].
  intros _. cbn [run_final run_archive]. split; [|done].
  unfold download_zip, download_zip_reads. rewrite lookup_insert_eq.
  cbn [status zip_path finish_job].
  rewrite decide_False by (intros H; by apply H).
  rewrite decide_False by apply path_join_nonempty. done.
Qed.

Lemma X12_archive_served_after_run_witness :
  let run := download_videos steady_env three_urls "3f2a9c1e" "720"
               (<["3f2a9c1e" := new_job 0]> ∅) in
  download_zip (λ _, true) (run_final run) "3f2a9c1e"
  = SendFile "/home/user/Downloads/youtube_3f2a9c1e.zip"
             "youtube_3f2a9c1e.zip" "application/zip".
Proof.
  cbv zeta.
  refine (proj1 (X12_archive_served_after_run steady_env three_urls
            "3f2a9c1e" "720" ∅ (new_job 0) (λ _, true) _)).
  reflexivity.
Defined.

(** ** Paths *)

Lemma path_join_prefix (a : string) :
  ∃ p, ∀ b, path_join a b = p +:+ b.
Proof.
  unfold path_join. case_decide.
  - by exists "/".
  - exists (a +:+ "/"). intros b. by rewrite string_app_assoc.
Qed.

(** X13: the paths of line 33, 37 and 69, under one home directory.
    Different identifiers have different job directories; the archive of
    a job is never a job directory nor a path inside one (it lies beside
    them); and the output template lies inside the job's own directory. *)
Theorem X13_job_paths_do_not_collide (hm id1 id2 quality rest : string) :
  (download_dir_of hm id1 = download_dir_of hm id2 ↔ id1 = id2)
  ∧ zip_path_of hm id2 ≠ download_dir_of hm id1 +:+ rest
  ∧ ∃ name, outtmpl (make_opts (download_dir_of hm id1) quality)
            = path_join (download_dir_of hm id1) name.
Proof.
  split; [|split].
  - split; [|by intros ->]. unfold download_dir_of. intros H.
    apply path_join_inj in H. by apply String.app_inj in H.
  - unfold zip_path_of, download_dir_of.
    destruct (path_join_prefix (path_join hm "Downloads")) as [p Hp].
    rewrite !Hp, string_app_assoc. intros H. apply String.app_inj in H.
    discriminate.
  - by eexists.
Qed.

(** ** More about the archive *)

Lemma write_zip_sublist (entries : list (string * node)) :
  (write_zip entries).*1 `sublist_of` entries.*1.
Proof.
  induction entries as [|[f n] rest IH]; simpl; [done|].
  destruct (isfile n); by constructor.
Qed.

(** X14: the members of the archive are listed in directory order and
    are never more than the directory's entries; as the names in a
    directory are distinct, no two members have the same name; and the
    archive is empty exactly when the directory has no regular file
    (it is written all the same). *)
Theorem X14_archive_has_distinct_members (entries : list (string * node)) :
  NoDup entries.*1 →
  NoDup (write_zip entries).*1
  ∧ (write_zip entries).*1 `sublist_of` entries.*1
  ∧ (length (write_zip entries) ≤ length entries)%nat
  ∧ (write_zip entries = [] ↔ Forall (λ e, isfile e.2 = false) entries).
Proof.
  intros Hnd. pose proof (write_zip_sublist entries) as Hsub.
  split; [by eapply sublist_NoDup|]. split; [done|]. split.
  - apply sublist_length in Hsub. by rewrite !length_fmap in Hsub.
  - clear. induction entries as [|[f n] rest IH]; simpl.
    + split; [constructor | done].
    + destruct (isfile n) eqn:E; split.
      * done.
      * intros H. inversion H as [|? ? H1 H2]; subst. simpl in H1. congruence.
      * intros H. constructor; [done | by apply IH].
      * intros H. inversion H; subst. by apply IH.
Qed.

Lemma X14_archive_has_distinct_members_witness :
  NoDup (write_zip sample_dir).*1
  ∧ (length (write_zip sample_dir) ≤ length sample_dir)%nat.
Proof.
  destruct (X14_archive_has_distinct_members sample_dir) as (H1 & _ & H2 & _).
  - apply (bool_decide_unpack _). by vm_compute.
  - split; [exact H1 | exact H2].
Defined.

(** ** Start-up *)

(** X15: [install_yt_dlp] never returns [False]: it returns [True] when
    the import works or the pip command succeeds, and raises otherwise.
    So the script never takes its [sys.exit(1)] branch: it reaches
    [app.run] on 0.0.0.0:5000 exactly when the import works, or fails
    with [ImportError] and pip succeeds, and dies with an exception in
    every other case. *)
Theorem X15_install_never_returns_false (imp : import_result)
    (pip : option string) :
  install_yt_dlp imp pip ≠ inl false
  ∧ (∀ code, main imp pip ≠ Exits code)
  ∧ (main imp pip = Serves "0.0.0.0" 5000 ↔
     imp = ImportOk ∨ (imp = ImportError ∧ pip = None))
  ∧ (∀ e, main imp pip = Dies e ↔
          imp = ImportRaises e ∨ (imp = ImportError ∧ pip = Some e)).
Proof.
  unfold main, install_yt_dlp.
  destruct imp as [| |m]; [|destruct pip as [m|]|]; simpl;
    (split; [done|]); (split; [done|]); split; try intros e; split;
    try done; try (by left); try (by right);
    try (intros [H|[H1 H2]]; done);
    try (intros [= <-]; by (left + right)).
  - intros [[= <-]|[_ [= <-]]]; done.
  - intros [[= <-]|[[=] _]]. done.
Qed.

(** ** Identifiers and messages *)

Lemma py_take_length (n : nat) (s : string) :
  String.length (py_take n s) = Nat.min n (String.length s).
Proof.
  unfold py_take. revert s. induction n as [|n IH]; intros [|a s]; simpl;
    try done. by rewrite IH.
Qed.

Lemma py_take_prefix (n : nat) (s : string) : ∃ rest, s = py_take n s +:+ rest.
Proof.
  unfold py_take. revert s. induction n as [|n IH]; intros [|a s]; simpl.
  - by exists "".
  - by exists (String a s).
  - by exists "".
  - destruct (IH s) as [rest Hr]. exists rest.
    change (String a s = String a (String.substring 0 n s +:+ rest)).
    by rewrite <- Hr.
Qed.

(** X16: the identifier a creation hands out is a prefix of the UUID
    string, of at most eight characters, and of exactly eight whenever
    the UUID string has that many (a UUID in text form has 36). *)
Theorem X16_identifier_is_uuid_prefix (uuid4 : string) (now : Q)
    (urls : list string) (quality : string) (reg : gmap string Job)
    (download_id : string) :
  (start_download uuid4 now urls quality reg).1.1 = JsonStarted download_id →
  (String.length download_id ≤ 8)%nat
  ∧ ((8 ≤ String.length uuid4)%nat → String.length download_id = 8%nat)
  ∧ (∃ rest, uuid4 = download_id +:+ rest)
  ∧ is_Some ((start_download uuid4 now urls quality reg).1.2 !! download_id).
Proof.
  unfold start_download.
  destruct (List.filter is_valid_youtube_url urls) as [|u rest]; [done|].
  cbn [fst snd]. intros [= <-]. rewrite py_take_length.
  split; [lia|]. split; [lia|]. split; [apply py_take_prefix|].
  rewrite lookup_insert_eq. by eexists.
Qed.

Lemma X16_identifier_is_uuid_prefix_witness :
  (String.length "3f2a9c1e" ≤ 8)%nat
  ∧ ((8 ≤ String.length uuid_a)%nat → String.length "3f2a9c1e" = 8%nat)
  ∧ (∃ rest, uuid_a = "3f2a9c1e" +:+ rest)
  ∧ is_Some ((start_download uuid_a 0 three_urls "720" ∅).1.2 !! "3f2a9c1e").
Proof.
  apply (X16_identifier_is_uuid_prefix uuid_a 0 three_urls "720" ∅ "3f2a9c1e").
  reflexivity.
Defined.

(** X17: the message a hook call leaves is short.  On a ['downloading']
    or ['finished'] event the current message of the job becomes
    "Downloading: " or "Finished: " followed by at most the first fifty
    characters of the event's file name (nothing when the event has
    none), so it never has more than 63 characters. *)
Theorem X17_hook_message_is_bounded (download_id : string) (total completed c' : Z)
    (d : hook_event) (reg reg' : gmap string Job) (j : Job) :
  progress_hook download_id total d completed (<[download_id := j]> reg)
  = HookOk c' reg' →
  ev_status d = "downloading" ∨ ev_status d = "finished" →
  ∃ j' name rest,
    reg' !! download_id = Some j'
    ∧ current j' = (if decide (ev_status d = "downloading")
                    then "Downloading: " else "Finished: ") +:+ name
    ∧ default "" (ev_filename d) = name +:+ rest
    ∧ String.length name = Nat.min 50 (String.length (default "" (ev_filename d)))
    ∧ (String.length (current j') ≤ 63)%nat.
Proof.
  intros H Hd. unfold progress_hook in H. rewrite lookup_insert_eq in H.
  destruct (py_take_prefix 50 (default "" (ev_filename d))) as [rest Hrest].
  pose proof (py_take_length 50 (default "" (ev_filename d))) as Hlen.
  fold (ev_name d) in Hrest, Hlen.
  destruct (decide (ev_status d = "downloading")) as [Hdown|Hdown].
  - destruct (decide (total = 0)); [done|]. injection H as <- <-.
    eexists _, (ev_name d), rest. split; [apply lookup_insert_eq|].
    cbn [current set_current]. split; [done|]. split; [done|]. split; [done|].
    rewrite string_app_length, Hlen.
    change (String.length "Downloading: ") with 13%nat. lia.
  - destruct Hd as [Hd|Hd]; [done|]. rewrite decide_True in H by done.
    injection H as <- <-.
    eexists _, (ev_name d), rest. split; [apply lookup_insert_eq|].
    cbn [current set_current]. split; [done|]. split; [done|]. split; [done|].
    rewrite string_app_length, Hlen.
    change (String.length "Finished: ") with 10%nat. lia.
Qed.

Lemma X17_hook_message_is_bounded_witness :
  let long := "01 - A very long title that goes on and on and on and on.mp4" in
  ∃ j' name rest,
    (<["3f2a9c1e" := set_current ("Finished: " +:+ py_take 50 long) (new_job 0)]>
       (∅ : gmap string Job)) !! "3f2a9c1e" = Some j'
    ∧ current j' = "Finished: " +:+ name
    ∧ long = name +:+ rest
    ∧ String.length name = 50%nat
    ∧ (String.length (current j') ≤ 63)%nat.
Proof.
  cbv zeta.
  exact (X17_hook_message_is_bounded "3f2a9c1e" 2 0 1
           (finished "01 - A very long title that goes on and on and on and on.mp4")
           ∅ _ (new_job 0) eq_refl (or_intror eq_refl)).
Defined.

(** ** A sequence of creation requests *)

Lemma filter_nil_existsb {A : Type} (f : A → bool) (l : list A) :
  List.filter f l = [] ↔ existsb f l = false.
Proof.
  induction l as [|x l IH]; simpl; [done|].
  destruct (f x); simpl; [split; done | exact IH].
Qed.

Lemma start_download_cases (uuid4 : string) (now : Q) (urls : list string)
    (quality : string) (reg : gmap string Job) :
  (existsb is_valid_youtube_url urls = false
   ∧ (start_download uuid4 now urls quality reg).1
     = (JsonFailure "No valid URLs", reg))
  ∨ (existsb is_valid_youtube_url urls = true
     ∧ (start_download uuid4 now urls quality reg).1
       = (JsonStarted (py_take 8 uuid4), <[py_take 8 uuid4 := new_job now]> reg)).
Proof.
  unfold start_download.
  destruct (List.filter is_valid_youtube_url urls) as [|u rest] eqn:E.
  - left. split; [by apply filter_nil_existsb | done].
  - right. split; [|done].
    destruct (existsb is_valid_youtube_url urls) eqn:E2; [done|].
    apply filter_nil_existsb in E2. congruence.
Qed.

(** X18: over any sequence of creation requests there is one answer per
    request; the identifiers answered are, in order, the eight-character
    UUID prefixes of the requests that had an accepted url; at the end
    the registry holds its old identifiers and exactly those; and when
    these prefixes are distinct and new to the registry, every accepted
    request has a record of its own. *)
Theorem X18_requests_in_sequence (reqs : list (string * Q * list string * string))
    (reg : gmap string Job) :
  length (serve_all reqs reg).1 = length reqs
  ∧ omap started_id (serve_all reqs reg).1 = issued_ids reqs
  ∧ dom (serve_all reqs reg).2 = dom reg ∪ list_to_set (issued_ids reqs)
  ∧ (NoDup (issued_ids reqs) →
     Forall (λ download_id, reg !! download_id = None) (issued_ids reqs) →
     size (serve_all reqs reg).2 = (size reg + length (issued_ids reqs))%nat).
Proof.
  revert reg. induction reqs as [|[[[uuid4 now] urls] quality] rest IH];
    intros reg.
  - cbn. split; [done|]. split; [done|].
    split; [by rewrite (right_id_L ∅ (∪))|]. intros _ _. lia.
  - cbn [serve_all]. unfold issued_ids in *. cbn [List.filter].
    destruct (start_download_cases uuid4 now urls quality reg)
      as [[Hv Hs] | [Hv Hs]];
      destruct (start_download uuid4 now urls quality reg) as [[resp reg1] th];
      cbn [fst] in Hs; injection Hs as Hresp Hreg; subst resp reg1;
      rewrite Hv.
    + specialize (IH reg).
      destruct (serve_all rest reg) as [resps reg2].
      cbn [fst snd omap list_omap started_id length] in *.
      destruct IH as (IH1 & IH2 & IH3 & IH4). by rewrite IH1.
    + specialize (IH (<[py_take 8 uuid4 := new_job now]> reg)).
      destruct (serve_all rest (<[py_take 8 uuid4 := new_job now]> reg))
        as [resps reg2].
      cbn [fst snd omap list_omap started_id length fmap list_fmap] in *.
      destruct IH as (IH1 & IH2 & IH3 & IH4).
      split; [by rewrite IH1|]. split; [by rewrite IH2|]. split.
      * rewrite IH3, dom_insert_L. cbn [list_to_set].
        by rewrite (assoc_L (∪)), (comm_L (∪) (dom reg)).
      * intros Hnd Hfresh. inversion Hnd as [|? ? Hnotin Hnd']; subst.
        inversion Hfresh as [|? ? Hid Hfresh']; subst.
        rewrite IH4; [|done|].
        -- rewrite map_size_insert_None by done. lia.
        -- rewrite Forall_forall in Hfresh'. apply Forall_forall.
           intros id Hin. rewrite lookup_insert_ne; [by apply Hfresh'|].
           intros <-. by apply Hnotin.
Qed.
